(** * SeaTunnel engine UI: job DAG layout, scene construction and metric cells

    A shallow embedding of the logic of

      - [components/directed-acyclic-graph/index.tsx]
        ([isConnected], [init], [showNodeStatus]) and
      - [views/jobs/detail.tsx] ([tableData], [sourceCell], [sinkCell])

    together with the properties the specification states about them.

    Conventions of the embedding.

    - A JavaScript exception is a value: functions that can throw return
      [result A], either [Ok a] or [Throw e].
    - A JavaScript number that the code only uses as an integer (vertex ids,
      pixel coordinates, the draw-order counter) is a [Z].  [ToString] is the
      decimal form [String(n)] has for integers of magnitude below 10^21.
    - An object used as a dictionary and enumerated with [Object.keys] is an
      association list in enumeration order; one that is only looked up is a
      [gmap].
    - Objects that the code mutates through several references (the [Point]
      objects and the row arrays of [init]) live in an explicit store and are
      named by their address. *)

From stdpp Require Import base option list strings gmap pretty sorting.
From Stdlib Require Import ZArith Lia.

Open Scope Z_scope.
Open Scope string_scope.
Open Scope list_scope.

(** ** Exceptions *)

Inductive JsError : Type :=
  | TypeError (msg : string)
    (** property access on [undefined] *)
  | InvalidRef
    (** an address outside the store: an artefact of naming objects by
        number, shown never to arise ([init_never_InvalidRef]) *).

Inductive result (A : Type) : Type :=
  | Ok (a : A)
  | Throw (e : JsError).
Arguments Ok {A} a.
Arguments Throw {A} e.

Global Instance result_ret : MRet result := λ A a, Ok a.
Global Instance result_bind : MBind result := λ A B k m,
  match m with
  | Ok a => k a
  | Throw e => Throw e
  end.

Definition throws {A} (m : result A) : Prop := ∃ e, m = Throw e.

(** [String(n)] / template-literal conversion of an integer. *)
Definition ToString (n : Z) : string := pretty n.

(** ** The job snapshot ([@/service/job/types]) *)

Module Types.

(** Modelled from the spec: the declaration of [Vertex] in
    [@/service/job/types] is not part of the sources; the fields are those
    the two components read (section 3 of the specification: integer
    identifier, display name, type, list of table paths). *)
Record Vertex : Type := mkVertex {
  vertexId : Z;
  type : string;
  vertexName : string;
  tablePaths : list string
}.

(** Modelled from the spec: the declaration of the edge type is not part of
    the sources; both ends are string-encoded vertex ids. *)
Record Edge : Type := mkEdge {
  inputVertexId : string;
  targetVertexId : string
}.

(** Modelled from the spec: the declaration of the DAG snapshot is not part
    of the sources.  Either field can be absent ([None]); the edge map lists
    its pipelines in [Object.keys] order. *)
Record JobDag : Type := mkJobDag {
  vertexInfoMap : option (list Vertex);
  pipelineEdges : option (list (string * list Edge))
}.

(** Modelled from the spec: the declaration of [Job] is not part of the
    sources.  [reactive({} as Job)] is the job all of whose fields are
    absent; metric values are integers here. *)
Record Job : Type := mkJob {
  jobStatus : option string;
  jobDag : option JobDag;
  metrics : option (gmap string (gmap string Z))
}.

(** [{} as Job] *)
Definition emptyJob : Job :=
  {| jobStatus := None; jobDag := None; metrics := None |}.

End Types.
Import Types.

Global Instance Vertex_eq_dec : EqDecision Vertex.
Proof. solve_decision. Defined.
Global Instance Edge_eq_dec : EqDecision Edge.
Proof. solve_decision. Defined.

(** ** The DAG component ([directed-acyclic-graph/index.tsx]) *)

Module Dag.

(** [interface NodeStatus { id: number; status: JobStatus; label?: string }] *)
Module NodeStatus.
Record t : Type := mk { id : Z; status : string; label : option string }.
End NodeStatus.

(** [type Port = { id: string; group: string }] *)
Module Port.
Record t : Type := mk { id : string; group : string }.
End Port.

(** The two shapes of [Cell.Metadata] that [init] builds. *)
Module Terminal.
Record t : Type := mk { cell : string; port : string }.
End Terminal.
Module NodeMeta.
Record t : Type := mk {
  id : string; x : Z; y : Z; data : NodeStatus.t; ports : list Port.t
}.
End NodeMeta.
Module EdgeMeta.
Record t : Type := mk {
  id : string; source : Terminal.t; target : Terminal.t; zIndex : Z
}.
End EdgeMeta.
Inductive Metadata : Type :=
  | DagNode (n : NodeMeta.t)   (** [shape: 'dag-node'] *)
  | DagEdge (e : EdgeMeta.t).  (** [shape: 'dag-edge'] *)

(** [type Point = Vertex & { next: Vertex[]; row?: Point[]; ports?: Port[] }].
    [next] holds addresses of points, [row] the address of a row array
    ([None] is [undefined]); [ports] is never written. *)
Record Point : Type := mkPoint {
  vertex : Vertex;
  next : list nat;
  row : option nat
}.

(** [props?.job.jobDag.pipelineEdges || {}]: reading [pipelineEdges] of an
    absent [jobDag] throws; an absent edge map is replaced by [{}]. *)
Definition edgeMapOf (job : Job) : result (list (string * list Edge)) :=
  match jobDag job with
  | None => Throw (TypeError "Cannot read properties of undefined (reading 'pipelineEdges')")
  | Some dag => Ok (default [] (pipelineEdges dag))
  end.

(** The test of the inner loop of [isConnected]. *)
Definition edgeMatches (source target : Point) (e : Edge) : bool :=
  bool_decide (inputVertexId e = ToString (vertexId (vertex source)))
  && bool_decide (targetVertexId e = ToString (vertexId (vertex target))).

(** [for (const {inputVertexId, targetVertexId} of edgeMap[key])].  The
    value is the position in [edges] of the edge at which [return true] is
    executed; [None] when the loop runs to its end. *)
Fixpoint scanEdges (source target : Point) (edges : list Edge) : option nat :=
  match edges with
  | [] => None
  | e :: rest =>
      if edgeMatches source target e then Some 0%nat
      else S <$> scanEdges source target rest
  end.

(** [for (const key of Object.keys(edgeMap))].  The value is the position
    (pipeline, edge within the pipeline) at which [return true] is executed;
    [None] when both loops run to their ends and [return false] is
    reached. *)
Fixpoint scanPipelines (source target : Point)
    (edgeMap : list (string * list Edge)) : option (nat * nat) :=
  match edgeMap with
  | [] => None
  | (_, edges) :: rest =>
      match scanEdges source target edges with
      | Some j => Some (0%nat, j)
      | None => prod_map S id <$> scanPipelines source target rest
      end
  end.

Definition isConnected (job : Job) (source target : Point) : result bool :=
  edgeMap ← edgeMapOf job;
  Ok (if scanPipelines source target edgeMap is Some _ then true else false).

(** *** [init]: the row layout (lines 237-266) *)

(** The objects [init] mutates: the [Point] objects, named by their index in
    the array [points], and the row arrays, named by the index at which each
    was pushed onto [matrix] (a row array is created only to be pushed, and
    [matrix] only grows). *)
Record Store : Type := mkStore {
  points : list Point;
  matrix : list (list nat)
}.

Definition deref (pts : list Point) (p : nat) : result Point :=
  match pts !! p with
  | Some point => Ok point
  | None => Throw InvalidRef
  end.

Definition set_next (nx : list nat) (point : Point) : Point :=
  {| vertex := vertex point; next := nx; row := row point |}.
Definition push_next (q : nat) (point : Point) : Point :=
  {| vertex := vertex point; next := next point ++ [q]; row := row point |}.
Definition set_row (r : option nat) (point : Point) : Point :=
  {| vertex := vertex point; next := next point; row := r |}.

(** [for (const point of row) if (isConnected(point, item)) return point] *)
Fixpoint findInRow (job : Job) (pts : list Point) (item : Point)
    (r : list nat) : result (option nat) :=
  match r with
  | [] => Ok None
  | p :: rest =>
      point ← deref pts p;
      c ← isConnected job point item;
      if c : bool then Ok (Some p) else findInRow job pts item rest
  end.

(** [for (const row of matrix) ...] *)
Fixpoint findInRows (job : Job) (pts : list Point) (item : Point)
    (rows : list (list nat)) : result (option nat) :=
  match rows with
  | [] => Ok None
  | r :: rest =>
      found ← findInRow job pts item r;
      match found with
      | Some p => Ok (Some p)
      | None => findInRows job pts item rest
      end
  end.

(** [findPrevious]: [None] is the [undefined] of falling off the end. *)
Definition findPrevious (job : Job) (st : Store) (item : Point)
    : result (option nat) :=
  findInRows job (points st) item (matrix st).

(** [point.row = [point]; matrix.push(point.row)] *)
Definition newRow (i : nat) (st : Store) : Store :=
  {| points := alter (set_row (Some (length (matrix st)))) i (points st);
     matrix := matrix st ++ [[i]] |}.

(** The callback of [points.forEach], applied to the point at address [i]. *)
Definition place (job : Job) (st : Store) (i : nat) : result Store :=
  point ← deref (points st) i;
  prevous ← findPrevious job st point;
  match prevous with
  | None => Ok (newRow i st)
  | Some p =>
      prev ← deref (points st) p;
      if bool_decide (next prev ≠ []) then
        (* prevous.next.push(point) *)
        Ok (newRow i {| points := alter (push_next i) p (points st);
                        matrix := matrix st |})
      else
        (* point.row = prevous.row *)
        let pts1 := alter (set_row (row prev)) i (points st) in
        (* prevous.next = [point] *)
        let pts2 := alter (set_next [i]) p pts1 in
        (* prevous.row!.push(point) *)
        prev' ← deref pts2 p;
        match row prev' with
        | None =>
            Throw (TypeError "Cannot read properties of undefined (reading 'push')")
        | Some r =>
            if bool_decide (r < length (matrix st))%nat then
              Ok {| points := pts2;
                    matrix := alter (λ cells, cells ++ [i]) r (matrix st) |}
            else Throw InvalidRef
        end
  end.

(** [points.forEach(...)]: addresses [0 .. points.length - 1] in order;
    an exception leaves the loop. *)
Fixpoint forEach (job : Job) (st : Store) (addrs : list nat) : result Store :=
  match addrs with
  | [] => Ok st
  | i :: rest => st' ← place job st i; forEach job st' rest
  end.

(** [props?.job?.jobDag?.vertexInfoMap?.map((item) => ({...item, next: []})) || []] *)
Definition initialPoints (job : Job) : list Point :=
  match jobDag job with
  | None => []
  | Some dag =>
      match vertexInfoMap dag with
      | None => []
      | Some vs => (λ item, {| vertex := item; next := []; row := None |}) <$> vs
      end
  end.

Definition buildMatrix (job : Job) : result Store :=
  let pts := initialPoints job in
  forEach job {| points := pts; matrix := [] |} (seq 0 (length pts)).

(** The rows of [matrix] with every address replaced by the object it
    names. *)
Fixpoint derefRow (pts : list Point) (r : list nat) : result (list Point) :=
  match r with
  | [] => Ok []
  | p :: rest =>
      point ← deref pts p; points ← derefRow pts rest; Ok (point :: points)
  end.

Fixpoint derefRows (pts : list Point) (rows : list (list nat))
    : result (list (list Point)) :=
  match rows with
  | [] => Ok []
  | r :: rest =>
      cells ← derefRow pts r; others ← derefRows pts rest; Ok (cells :: others)
  end.

(** The layout grid: [matrix] as it stands after the [forEach]. *)
Definition layout (job : Job) : result (list (list Point)) :=
  st ← buildMatrix job;
  derefRows (points st) (matrix st).

(** *** [init]: the scene (lines 268-323) *)

(** [props?.job?.jobStatus || 'default']: the empty string is falsy. *)
Definition statusOf (job : Job) : string :=
  match jobStatus job with
  | Some s => if bool_decide (s = "") then "default" else s
  | None => "default"
  end.

Definition nodeWidth : Z := 300.
Definition offsetY : Z := 140.
Definition offsetX : Z := nodeWidth + 240.

(** The body of the inner [row.forEach((item, colNumber) => ...)]: the
    object pushed onto [items]; [rowLength] is [row.length]. *)
Definition nodeMeta (status : string) (rowNumber rowLength colNumber : nat)
    (item : Point) : NodeMeta.t :=
  let data := {| NodeStatus.id := vertexId (vertex item);
                 NodeStatus.label := Some (vertexName (vertex item));
                 NodeStatus.status := status |} in
  let id := "node-" +:+ ToString (vertexId (vertex item)) in
  let ports := [] in
  let ports :=
    if bool_decide (Z.of_nat colNumber ≠ 0)
    then ports ++ [{| Port.id := id +:+ "-left"; Port.group := "left" |}]
    else ports in
  let ports :=
    if bool_decide (Z.of_nat colNumber ≠ Z.of_nat rowLength - 1)
    then ports ++ [{| Port.id := id +:+ "-right"; Port.group := "right" |}]
    else ports in
  {| NodeMeta.id := id;
     NodeMeta.x := Z.of_nat colNumber * offsetX;
     NodeMeta.y := Z.of_nat rowNumber * offsetY;
     NodeMeta.data := data;
     NodeMeta.ports := ports |}.

(** [items.push({ id, shape: 'dag-node', x, y, data, ports })] *)
Definition nodeItem (status : string) (rowNumber rowLength colNumber : nat)
    (item : Point) : Metadata :=
  DagNode (nodeMeta status rowNumber rowLength colNumber item).

(** [matrix.forEach((row, rowNumber) => row.forEach((item, colNumber) => ...))] *)
Definition nodeItems (status : string) (grid : list (list Point))
    : list Metadata :=
  concat (imap (λ rowNumber r,
                  imap (λ colNumber item,
                          nodeItem status rowNumber (length r) colNumber item) r)
               grid).

(** The body of [for (const edge of edges)]: the object pushed onto
    [items], [id] being the pipeline key. *)
Definition edgeMeta (id : string) (edge : Edge) (zIndex : Z) : EdgeMeta.t :=
  {| EdgeMeta.id := "edge-" +:+ id;
     EdgeMeta.source :=
       {| Terminal.cell := "node-" +:+ inputVertexId edge;
          Terminal.port := "node-" +:+ inputVertexId edge +:+ "-right" |};
     EdgeMeta.target :=
       {| Terminal.cell := "node-" +:+ targetVertexId edge;
          Terminal.port := "node-" +:+ targetVertexId edge +:+ "-left" |};
     EdgeMeta.zIndex := zIndex |}.

(** [items.push({ id, shape: 'dag-edge', source, target, zIndex })] *)
Definition edgeItem (id : string) (edge : Edge) (zIndex : Z) : Metadata :=
  DagEdge (edgeMeta id edge zIndex).

(** [for (const edge of edges) items.push({..., zIndex: zIndex++})]:
    the pushed items and the counter afterwards. *)
Fixpoint pipelineItems (id : string) (edges : list Edge) (zIndex : Z)
    : list Metadata * Z :=
  match edges with
  | [] => ([], zIndex)
  | edge :: rest =>
      let '(items, z) := pipelineItems id rest (zIndex + 1) in
      (edgeItem id edge zIndex :: items, z)
  end.

(** [for (const id of Object.keys(edgeMap)) ...] *)
Fixpoint edgeItems (edgeMap : list (string * list Edge)) (zIndex : Z)
    : list Metadata * Z :=
  match edgeMap with
  | [] => ([], zIndex)
  | (id, edges) :: rest =>
      let '(items, z) := pipelineItems id edges zIndex in
      let '(others, z') := edgeItems rest z in
      (items ++ others, z')
  end.

(** [init], up to the list [items] from which the cells handed to
    [graph.resetCells] are created one for one. *)
Definition init (job : Job) : result (list Metadata) :=
  st ← buildMatrix job;
  grid ← derefRows (points st) (matrix st);
  let items := nodeItems (statusOf job) grid in
  edgeMap ← edgeMapOf job;
  Ok (items ++ (edgeItems edgeMap 0).1).

Definition nodesOf (items : list Metadata) : list NodeMeta.t :=
  omap (λ item, match item with DagNode n => Some n | DagEdge _ => None end) items.
Definition edgesOf (items : list Metadata) : list EdgeMeta.t :=
  omap (λ item, match item with DagEdge e => Some e | DagNode _ => None end) items.

(** *** [showNodeStatus] (lines 336-351) *)

(** What one call of [showNodeStatus] does: the cells of the graph after it
    (those that carry node data, by cell id; the listener that restyles the
    incoming edges of a node whose data changes is left out), the calls of
    [node.setData] and the timer. *)
Record Tick : Type := mkTick {
  cells : gmap string NodeStatus.t;
  setData : list (string * NodeStatus.t);
    (** the calls [node.setData] made, in order *)
  setTimeout : option Z
    (** the delay of the timer set, if one is set *)
}.

(** [`node-${id}`] *)
Definition cellOf (item : NodeStatus.t) : string :=
  "node-" +:+ ToString (NodeStatus.id item).

(** [{ ...data, status }] *)
Definition withStatus (status : string) (data : NodeStatus.t) : NodeStatus.t :=
  {| NodeStatus.id := NodeStatus.id data;
     NodeStatus.status := status;
     NodeStatus.label := NodeStatus.label data |}.

(** [status?.forEach((item) => ...)] on a snapshot that is present:
    [graph.getCellById] of an unknown id gives no cell, and [node.getData()]
    throws.  [log] collects the calls of [node.setData]. *)
Fixpoint applyStatus (graph : gmap string NodeStatus.t)
    (snapshot : list NodeStatus.t) (log : list (string * NodeStatus.t))
    : result (gmap string NodeStatus.t * list (string * NodeStatus.t)) :=
  match snapshot with
  | [] => Ok (graph, log)
  | item :: rest =>
      match graph !! cellOf item with
      | None =>
          Throw (TypeError "Cannot read properties of undefined (reading 'getData')")
      | Some data =>
          let data' := withStatus (NodeStatus.status item) data in
          applyStatus (<[cellOf item := data']> graph) rest
                      (log ++ [(cellOf item, data')])
      end
  end.

(** One call of [showNodeStatus].  [pick] is the value of
    [Math.floor(Math.random() * statusList.length)]: below the length for a
    non-empty list, 0 for the empty one. *)
Definition showNodeStatus (graph : gmap string NodeStatus.t)
    (statusList : list (list NodeStatus.t)) (pick : nat) : result Tick :=
  match statusList !! pick with
  | None =>
      (* status is undefined: the forEach is skipped, [if (!status) return] *)
      Ok {| cells := graph; setData := []; setTimeout := None |}
  | Some status =>
      '(graph', log) ← applyStatus graph status [];
      Ok {| cells := graph'; setData := log; setTimeout := Some 5000 |}
  end.

(** The calls of [showNodeStatus] that a first call leads to: every timer
    that is set fires and calls it again with the same [statusList].
    [picks] supplies the random pick of each call; the value lists the calls
    made, which end when a call sets no timer (or throws). *)
Fixpoint animate (graph : gmap string NodeStatus.t)
    (statusList : list (list NodeStatus.t)) (picks : list nat)
    : result (list Tick) :=
  match picks with
  | [] => Ok []
  | pick :: rest =>
      tick ← showNodeStatus graph statusList pick;
      match setTimeout tick with
      | None => Ok [tick]
      | Some _ =>
          ticks ← animate (cells tick) statusList rest;
          Ok (tick :: ticks)
      end
  end.

End Dag.

(** ** The job detail view ([views/jobs/detail.tsx]) *)

Module Detail.

(** The numbers the metric cells compute with: the doubles whose value is an
    integer (the two zeros are not told apart), the two infinities, and the
    [NaN] that [Number(undefined)] is. *)
Inductive Num : Type :=
  | Finite (z : Z)
  | Infinity (negative : bool)
  | NaN.

(** The largest magnitude up to which every integer is a double. *)
Definition maxSafe : Z := (2 ^ 53)%Z.

(** The magnitude from which a rounded value is an infinity. *)
Definition overflow : Z := (2 ^ 1024)%Z.

(** The integer with a significand of 53 bits that is nearest to [z], the one
    with the even significand when two are equally near. *)
Definition round53 (z : Z) : Z :=
  let a := Z.abs z in
  if (a <=? maxSafe)%Z then z
  else
    let e := (Z.log2 a - 52)%Z in
    let q := Z.shiftr a e in
    let r := (a - Z.shiftl q e)%Z in
    let half := (2 ^ (e - 1))%Z in
    let q' := if (r <? half)%Z then q
              else if (half <? r)%Z then (q + 1)%Z
              else if Z.even q then q else (q + 1)%Z in
    (Z.sgn z * Z.shiftl q' e)%Z.

(** The double nearest to the integer [z]. *)
Definition ofZ (z : Z) : Num :=
  let r := round53 z in
  if (overflow <=? Z.abs r)%Z then Infinity (z <? 0)%Z else Finite r.

(** [a + b] on numbers: the exact sum rounded to the nearest double. *)
Definition add (a b : Num) : Num :=
  match a, b with
  | NaN, _ | _, NaN => NaN
  | Infinity s, Infinity s' => if Bool.eqb s s' then Infinity s else NaN
  | Infinity s, Finite _ | Finite _, Infinity s => Infinity s
  | Finite x, Finite y => ofZ (x + y)%Z
  end.

(** [Number(v)] for a metric value or [undefined]; a metric value is the
    double nearest to the integer that stands for it. *)
Definition Number (v : option Z) : Num :=
  match v with
  | Some z => ofZ z
  | None => NaN
  end.

Inductive SourceKey : Type :=
  | TableSourceReceivedBytes
  | TableSourceReceivedCount
  | TableSourceReceivedQPS
  | TableSourceReceivedBytesPerSeconds.

Inductive SinkKey : Type :=
  | TableSinkWriteBytes
  | TableSinkWriteCount
  | TableSinkWriteQPS
  | TableSinkWriteBytesPerSeconds.

Definition sourceKeyName (key : SourceKey) : string :=
  match key with
  | TableSourceReceivedBytes => "TableSourceReceivedBytes"
  | TableSourceReceivedCount => "TableSourceReceivedCount"
  | TableSourceReceivedQPS => "TableSourceReceivedQPS"
  | TableSourceReceivedBytesPerSeconds => "TableSourceReceivedBytesPerSeconds"
  end.

Definition sinkKeyName (key : SinkKey) : string :=
  match key with
  | TableSinkWriteBytes => "TableSinkWriteBytes"
  | TableSinkWriteCount => "TableSinkWriteCount"
  | TableSinkWriteQPS => "TableSinkWriteQPS"
  | TableSinkWriteBytesPerSeconds => "TableSinkWriteBytesPerSeconds"
  end.

(** [job.jobDag?.vertexInfoMap?.filter((v) => v.type !== 'transform') || []] *)
Definition tableData (job : Job) : list Vertex :=
  match jobDag job with
  | None => []
  | Some dag =>
      match vertexInfoMap dag with
      | None => []
      | Some vs => filter (λ v, type v ≠ "transform") vs
      end
  end.

(** [job.metrics?.[key][path]]: an absent [metrics] ends the whole chain
    with [undefined]; an absent [metrics[key]] is indexed and throws. *)
Definition metricAt (job : Job) (key path : string) : result (option Z) :=
  match metrics job with
  | None => Ok None
  | Some m =>
      match m !! key with
      | None => Throw (TypeError "Cannot read properties of undefined")
      | Some table => Ok (table !! path)
      end
  end.

(** [paths.reduce((s, path) => s + Number(job.metrics?.[key][path]), s0)] *)
Fixpoint reduce (job : Job) (key : string) (paths : list string) (s : Num)
    : result Num :=
  match paths with
  | [] => Ok s
  | path :: rest =>
      v ← metricAt job key path;
      reduce job key rest (add s (Number v))
  end.

Definition sourceCell (job : Job) (row : Vertex) (key : SourceKey)
    : result Num :=
  if bool_decide (type row = "source")
  then reduce job (sourceKeyName key) (tablePaths row) (Finite 0)
  else Ok (Finite 0).

Definition sinkCell (job : Job) (row : Vertex) (key : SinkKey)
    : result Num :=
  if bool_decide (type row = "sink")
  then reduce job (sinkKeyName key) (tablePaths row) (Finite 0)
  else Ok (Finite 0).

End Detail.

(** ** Vocabulary of the statements and sample data *)

Import Dag.

(** Every address in [matrix] names a point whose [row] names a row array of
    [matrix]: what [prevous.row!] relies on. *)
Definition wf (st : Store) : Prop :=
  ∀ cells p, cells ∈ matrix st → p ∈ cells →
    ∃ r, row <$> points st !! p = Some (Some r) ∧ (r < length (matrix st))%nat.

(** The edge [u → v]: both ends string-encoded. *)
Definition edgeOf (u v : Vertex) : Edge :=
  {| inputVertexId := ToString (vertexId u);
     targetVertexId := ToString (vertexId v) |}.

(** The vertices of a grid, without the layout's bookkeeping fields. *)
Definition vertices (grid : list (list Point)) : list (list Vertex) :=
  map (map vertex) grid.

(** Sample data: three vertices, a chain and a fan-out over them. *)
Module Examples.
Definition A : Vertex := mkVertex 1 "source" "A" ["a"; "b"].
Definition B : Vertex := mkVertex 2 "transform" "B" [].
Definition C : Vertex := mkVertex 3 "sink" "C" ["c"].

Definition chainDag : JobDag :=
  {| vertexInfoMap := Some [A; B; C];
     pipelineEdges := Some [("1", [edgeOf A B; edgeOf B C])] |}.
Definition chain : Job :=
  {| jobStatus := Some "RUNNING"; jobDag := Some chainDag; metrics := None |}.

Definition fanoutDag : JobDag :=
  {| vertexInfoMap := Some [A; B; C];
     pipelineEdges := Some [("1", [edgeOf A B; edgeOf A C])] |}.
Definition fanout : Job :=
  {| jobStatus := Some "RUNNING"; jobDag := Some fanoutDag; metrics := None |}.
End Examples.

(** The edges of an edge map in emission order, each with its pipeline key. *)
Fixpoint flatEdges (edgeMap : list (string * list Edge)) : list (string * Edge) :=
  match edgeMap with
  | [] => []
  | (id, edges) :: rest => (pair id <$> edges) ++ flatEdges rest
  end.

(** The groups of the ports of a node. *)
Definition portGroups (n : NodeMeta.t) : list string :=
  Port.group <$> NodeMeta.ports n.

Module EdgesOnly.
(** A DAG snapshot with an empty vertex list and one edge. *)
Definition dag : JobDag :=
  {| vertexInfoMap := Some [];
     pipelineEdges := Some [("1", [edgeOf Examples.A Examples.B])] |}.
Definition job : Job :=
  {| jobStatus := Some "RUNNING"; jobDag := Some dag; metrics := None |}.
End EdgesOnly.

Module Absent.
(** A job whose metrics map is present and empty. *)
Definition noKeys : Job :=
  {| jobStatus := None; jobDag := None; metrics := Some ∅ |}.
End Absent.

Module Metrics.
Definition table : gmap string Z := {[ "a" := 10; "b" := 20 ]}.
Definition snapshot : gmap string (gmap string Z) :=
  {[ "TableSourceReceivedBytes" := table ]}.
Definition job : Job :=
  {| jobStatus := None; jobDag := None; metrics := Some snapshot |}.
End Metrics.

(** The status a snapshot leaves on cell [c]: that of the last update naming
    it, if there is one. *)
Fixpoint lastStatus (c : string) (snapshot : list NodeStatus.t) : option string :=
  match snapshot with
  | [] => None
  | item :: rest =>
      match lastStatus c rest with
      | Some s => Some s
      | None => if bool_decide (cellOf item = c)
                then Some (NodeStatus.status item) else None
      end
  end.

(** Every update of every snapshot names a node of the graph. *)
Definition allNodesKnown (graph : gmap string NodeStatus.t)
    (statusList : list (list NodeStatus.t)) : Prop :=
  ∀ status item, status ∈ statusList → item ∈ status → is_Some (graph !! cellOf item).

(** The graph that call [n] of the loop starts from: the graph of the first
    call, and for each later call the cells that the call before it left. *)
Definition graphBefore (graph : gmap string NodeStatus.t) (ticks : list Tick) (n : nat)
    : gmap string NodeStatus.t :=
  match n with
  | O => graph
  | S m => default graph (cells <$> ticks !! m)
  end.

Module Animation.
(** A graph of two nodes and a sequence of two snapshots. *)
Definition graph : gmap string NodeStatus.t :=
  {[ "node-1" := NodeStatus.mk 1 "RUNNING" (Some "A");
     "node-2" := NodeStatus.mk 2 "RUNNING" (Some "B") ]}.
Definition statusList : list (list NodeStatus.t) :=
  [ [NodeStatus.mk 1 "FINISHED" None; NodeStatus.mk 2 "RUNNING" None];
    [NodeStatus.mk 2 "FAILED" None] ].
End Animation.

(** ** Further components and vocabulary *)

(** [height: 48] of the registered node shape *)
Definition nodeHeight : Z := 48.

Module Focus.

(** [select], [focusedId] and [drawerShow]: the refs of the view. *)
Record View : Type := mkView {
  select : string;
  focusedId : Z;
  drawerShow : bool
}.

(** [ref('Overview')], [ref(0)], [ref(false)] *)
Definition initial : View :=
  {| select := "Overview"; focusedId := 0; drawerShow := false |}.

(** [onFocus]: [drawerShow.value = true; focusedId.value = id] *)
Definition onFocus (id : Z) (v : View) : View :=
  {| select := select v; focusedId := id; drawerShow := true |}.

(** [onDrawerClose]: [drawerShow.value = false] *)
Definition onDrawerClose (v : View) : View :=
  {| select := select v; focusedId := focusedId v; drawerShow := false |}.

(** [graph.on('node:click', ...)]: [props.onNodeClick(id)] with the [id] of
    the node's data, [onNodeClick] being [onFocus]. *)
Definition nodeClick (data : NodeStatus.t) (v : View) : View :=
  onFocus (NodeStatus.id data) v.

(** [graph.on('blank:click', ...)]: [props.onNodeClick(0)] *)
Definition blankClick (v : View) : View := onFocus 0 v.

(** [rowProps]: [onClick: () => onFocus(row.vertexId)] *)
Definition rowClick (row : Vertex) (v : View) : View := onFocus (vertexId row) v.

(** [show={select.value === 'Overview' && !!focusedId.value && drawerShow.value}]:
    the number 0 is falsy. *)
Definition drawerShown (v : View) : bool :=
  bool_decide (select v = "Overview") && bool_decide (focusedId v ≠ 0) && drawerShow v.

(** [rowClassName] *)
Definition rowClassName (v : View) (row : Vertex) : string :=
  if bool_decide (vertexId row = focusedId v) then "focused-row" else "".

(** The values of the properties of the object [focusedVertex] builds. *)
Inductive JsValue : Type :=
  | JNumber (n : Z)
  | JString (s : string)
  | JArray (l : list string)
  | JObject (m : gmap string Z).

(** Modelled from the spec: the own properties of a [Vertex] object, the
    declaration of [Vertex] not being part of the sources. *)
Definition vertexObject (v : Vertex) : gmap string JsValue :=
  {[ "vertexId" := JNumber (vertexId v);
     "type" := JString (type v);
     "vertexName" := JString (vertexName v);
     "tablePaths" := JArray (tablePaths v) ]}.

(** [job.jobDag?.vertexInfoMap?.find((v) => v.vertexId === focusedId.value)] *)
Definition findVertex (job : Job) (id : Z) : option Vertex :=
  match jobDag job with
  | None => None
  | Some dag =>
      match vertexInfoMap dag with
      | None => None
      | Some vs => snd <$> list_find (λ v, vertexId v = id) vs
      end
  end.

(** [focusedVertex]: [Object.assign({}, vertex, job.metrics)]; an
    [undefined] source is skipped, and the properties of [job.metrics]
    overwrite those of the vertex. *)
Definition metricsObject (m : gmap string (gmap string Z)) : gmap string JsValue :=
  JObject <$> m.

Definition focusedVertex (job : Job) (v : View) : gmap string JsValue :=
  default ∅ (metricsObject <$> metrics job)
  ∪ default ∅ (vertexObject <$> findVertex job (focusedId v)).

End Focus.

(** [isConnected] on two vertices of a job whose edge map is [edgeMap]. *)
Definition connects (edgeMap : list (string * list Edge)) (u v : Vertex) : bool :=
  if scanPipelines (mkPoint u [] None) (mkPoint v [] None) edgeMap is Some _
  then true else false.

(** Is the point at address [p] connected to the vertex [v]? *)
Definition connAddr (edgeMap : list (string * list Edge)) (pts : list Point)
    (v : Vertex) (p : nat) : bool :=
  match pts !! p with
  | Some point => connects edgeMap (vertex point) v
  | None => false
  end.

(** Some pipeline of the edge map has the edge [u → v]. *)
Definition hasEdge (edgeMap : list (string * list Edge)) (u v : Vertex) : Prop :=
  ∃ key edges, (key, edges) ∈ edgeMap ∧ edgeOf u v ∈ edges.

(** The state of the layout once the points at addresses [0 .. k-1] are
    placed: every one of them is in exactly one row; a point's [row] names the
    row that holds it; in a row each point's first [next] is its right
    neighbour and the last point has no [next]; every [next] is a successor
    in the edge map; rows and row heads are in input order. *)
Record Placed (edgeMap : list (string * list Edge)) (vs : list Vertex)
    (k : nat) (st : Store) : Prop := mkPlaced {
  placed_vertex : vertex <$> points st = vs;
  placed_once : concat (matrix st) ≡ₚ seq 0 k;
  placed_nonempty : ∀ cells, cells ∈ matrix st → cells ≠ [];
  placed_row : ∀ r cells p,
    matrix st !! r = Some cells → p ∈ cells →
    row <$> points st !! p = Some (Some r);
  placed_last : ∀ cells p,
    cells ∈ matrix st → last cells = Some p →
    next <$> points st !! p = Some [];
  placed_succ : ∀ cells j p q,
    cells ∈ matrix st → cells !! j = Some p → cells !! S j = Some q →
    ∃ tl, next <$> points st !! p = Some (q :: tl);
  placed_conn : ∀ p nx q,
    next <$> points st !! p = Some nx → q ∈ nx →
    ∃ u v, vs !! p = Some u ∧ vs !! q = Some v ∧ connects edgeMap u v = true;
  placed_fresh : ∀ p,
    (k ≤ p)%nat → (p < length vs)%nat → next <$> points st !! p = Some [];
  placed_sorted : ∀ cells, cells ∈ matrix st → StronglySorted lt cells;
  placed_heads : StronglySorted lt (omap head (matrix st))
}.

(** Is the vertex at position [p] of [vs] connected to the one at [q]? *)
Definition connV (edgeMap : list (string * list Edge)) (vs : list Vertex)
    (p q : nat) : bool :=
  match vs !! p, vs !! q with
  | Some u, Some v => connects edgeMap u v
  | _, _ => false
  end.

(** Placing vertex [i] on the rows built so far, without the [next] and
    [row] fields: the first cell in row-major order that is connected to [i]
    is looked for; [i] goes behind it when that cell is the last of its row,
    and into a new row otherwise or when there is no such cell. *)
Definition rowsStep (conn : nat → nat → bool) (rows : list (list nat)) (i : nat)
    : list (list nat) :=
  match list_find (λ p, conn p i = true) (concat rows) with
  | None => rows ++ [[i]]
  | Some (_, p) =>
      match list_find (λ cells, last cells = Some p) rows with
      | Some (r, _) => alter (λ cells, cells ++ [i]) r rows
      | None => rows ++ [[i]]
      end
  end.

Definition rowsLayout (conn : nat → nat → bool) (n : nat) : list (list nat) :=
  foldl (rowsStep conn) [] (seq 0 n).

(** The vertices at the addresses of the rows. *)
Definition verticesAt (vs : list Vertex) (rows : list (list nat)) : list (list Vertex) :=
  map (omap (λ p, vs !! p)) rows.


(** The chain of [Examples] listed from its end, and the chain with an edge
    back from its end to its start. *)
Module Orders.
Definition reversedDag : JobDag :=
  {| vertexInfoMap := Some [Examples.C; Examples.B; Examples.A];
     pipelineEdges := Some [("1", [edgeOf Examples.A Examples.B;
                                   edgeOf Examples.B Examples.C])] |}.
Definition reversed : Job :=
  {| jobStatus := Some "RUNNING"; jobDag := Some reversedDag; metrics := None |}.

Definition cycleDag : JobDag :=
  {| vertexInfoMap := Some [Examples.A; Examples.B; Examples.C];
     pipelineEdges := Some [("1", [edgeOf Examples.A Examples.B;
                                   edgeOf Examples.B Examples.C]);
                            ("2", [edgeOf Examples.C Examples.A])] |}.
Definition cycle : Job :=
  {| jobStatus := Some "RUNNING"; jobDag := Some cycleDag; metrics := None |}.
End Orders.

(** * Properties *)

(** ** Results and strings *)

Lemma ToString_inj (m n : Z) : ToString m = ToString n → m = n.
Proof. unfold ToString. apply (inj pretty). Qed.

Lemma string_app_inj_l (s t1 t2 : string) : s +:+ t1 = s +:+ t2 → t1 = t2.
Proof. induction s as [|c s IH]; simpl; [done | intros [= H]; auto]. Qed.

(** ** [isConnected] *)

Section connectivity.
Context (source target : Point).

Lemma edgeMatches_true (e : Edge) :
  edgeMatches source target e = true ↔
  inputVertexId e = ToString (vertexId (vertex source)) ∧
  targetVertexId e = ToString (vertexId (vertex target)).
Proof.
  unfold edgeMatches. rewrite andb_true_iff, !bool_decide_eq_true. done.
Qed.

Lemma scanEdges_None (edges : list Edge) :
  scanEdges source target edges = None ↔
  ∀ e, e ∈ edges → edgeMatches source target e = false.
Proof.
  induction edges as [|e edges IH]; simpl.
  - split; [intros _ e' He'; by apply elem_of_nil in He' | done].
  - destruct (edgeMatches source target e) eqn:He.
    + split; [done |]. intros H. specialize (H e). rewrite He in H.
      discriminate H. apply list_elem_of_here.
    + rewrite fmap_None, IH. split.
      * intros H e' [->|He']%elem_of_cons; auto.
      * intros H e' He'. apply H. by apply list_elem_of_further.
Qed.

Lemma scanEdges_Some (edges : list Edge) (j : nat) :
  scanEdges source target edges = Some j →
  (∃ e, edges !! j = Some e ∧ edgeMatches source target e = true) ∧
  (∀ j' e', (j' < j)%nat → edges !! j' = Some e' →
            edgeMatches source target e' = false).
Proof.
  revert j. induction edges as [|e edges IH]; simpl; [done |].
  intros j. destruct (edgeMatches source target e) eqn:He.
  - intros [= <-]. split; [by exists e | intros; lia].
  - intros (j0 & Hj0 & ->)%fmap_Some. destruct (IH _ Hj0) as [Hat Hbefore].
    split; [done |]. intros [|j'] e' Hlt; simpl.
    + by intros [= <-].
    + apply Hbefore. lia.
Qed.

Lemma scanPipelines_None (edgeMap : list (string * list Edge)) :
  scanPipelines source target edgeMap = None ↔
  ∀ key edges e, (key, edges) ∈ edgeMap → e ∈ edges →
                 edgeMatches source target e = false.
Proof.
  induction edgeMap as [|[key0 edges0] edgeMap IH]; simpl.
  - split; [intros _ ??? H; by apply elem_of_nil in H | done].
  - destruct (scanEdges source target edges0) as [j|] eqn:Hscan.
    + split; [done |]. intros H.
      apply scanEdges_Some in Hscan as [(e & He & Hm) _].
      rewrite (H key0 edges0 e) in Hm; [done | apply list_elem_of_here |].
      by eapply list_elem_of_lookup_2.
    + rewrite fmap_None, IH. rewrite scanEdges_None in Hscan. split.
      * intros H key edges e [[= -> ->]|Hin]%elem_of_cons; eauto.
      * intros H key edges e Hin. apply (H key). by apply list_elem_of_further.
Qed.

Lemma scanPipelines_Some (edgeMap : list (string * list Edge)) (i j : nat) :
  scanPipelines source target edgeMap = Some (i, j) →
  (∃ key edges e, edgeMap !! i = Some (key, edges) ∧ edges !! j = Some e ∧
                  edgeMatches source target e = true) ∧
  (∀ i' j' key edges e,
      edgeMap !! i' = Some (key, edges) → edges !! j' = Some e →
      (i' < i)%nat ∨ (i' = i ∧ (j' < j)%nat) →
      edgeMatches source target e = false).
Proof.
  revert i. induction edgeMap as [|[key0 edges0] edgeMap IH]; simpl; [done |].
  intros i. destruct (scanEdges source target edges0) as [j0|] eqn:Hscan.
  - intros [= <- <-]. apply scanEdges_Some in Hscan as [(e & He & Hm) Hbefore].
    split; [by exists key0, edges0, e |].
    intros i' j' key edges e' Hi' Hj' [Hlt|[-> Hlt]]; [lia |].
    simpl in Hi'. injection Hi' as <- <-. eauto.
  - intros ([i0 j1] & Hrest & [= -> ->])%fmap_Some. simpl.
    destruct (IH _ Hrest) as [Hat Hbefore]. split; [done |].
    rewrite scanEdges_None in Hscan.
    intros [|i'] j' key edges e' Hi' Hj' Hlt; simpl in Hi'.
    + injection Hi' as <- <-. apply Hscan. by eapply list_elem_of_lookup_2.
    + eapply Hbefore; [done.. |]. lia.
Qed.

Lemma scanPipelines_is_Some (edgeMap : list (string * list Edge)) :
  is_Some (scanPipelines source target edgeMap) ↔
  ∃ key edges e, (key, edges) ∈ edgeMap ∧ e ∈ edges ∧
                 edgeMatches source target e = true.
Proof.
  split.
  - intros [[i j] H]. apply scanPipelines_Some in H as [(key & edges & e & Hi & Hj & Hm) _].
    exists key, edges, e. eauto using list_elem_of_lookup_2.
  - intros (key & edges & e & Hin & He & Hm).
    destruct (scanPipelines source target edgeMap) eqn:Hscan; [done |].
    rewrite scanPipelines_None in Hscan. by rewrite (Hscan _ _ _ Hin He) in Hm.
Qed.

End connectivity.

Lemma isConnected_Ok (job : Job) (dag : JobDag) (source target : Point) :
  jobDag job = Some dag →
  isConnected job source target =
    Ok (if scanPipelines source target (default [] (pipelineEdges dag)) is Some _
        then true else false).
Proof. intros Hdag. unfold isConnected, edgeMapOf. by rewrite Hdag. Qed.

Lemma isConnected_value (job : Job) (dag : JobDag) (source target : Point) :
  jobDag job = Some dag →
  ∃ b, isConnected job source target = Ok b ∧
       (b = true ↔
        ∃ key edges e, (key, edges) ∈ default [] (pipelineEdges dag) ∧ e ∈ edges ∧
          inputVertexId e = ToString (vertexId (vertex source)) ∧
          targetVertexId e = ToString (vertexId (vertex target))).
Proof.
  intros Hdag. eexists. split; [by apply isConnected_Ok |].
  destruct (scanPipelines source target _) as [ij|] eqn:Hscan.
  - split; [intros _ | done].
    assert (is_Some (scanPipelines source target (default [] (pipelineEdges dag))))
      as Hs by (by rewrite Hscan).
    apply scanPipelines_is_Some in Hs as (key & edges & e & Hin & He & Hm).
    apply edgeMatches_true in Hm. by exists key, edges, e.
  - split; [done |]. intros (key & edges & e & Hin & He & Hm).
    rewrite scanPipelines_None in Hscan.
    apply edgeMatches_true in Hm. by rewrite (Hscan _ _ _ Hin He) in Hm.
Qed.

(** C3.  With the DAG snapshot present (as it is whenever [init] has a vertex
    to place, the only time it calls [isConnected]), [isConnected] returns a
    value, and that value is [true] exactly when some edge of some pipeline
    has [inputVertexId] equal to the string form of the source's id and
    [targetVertexId] equal to that of the target's; [return true] is executed
    at the first matching edge in scan order (pipelines in key order, edges in
    array order), none before it matching; an absent edge map behaves as the
    empty one, giving [false] for every pair.  The function is a function of
    the job and the two points alone and returns nothing but the boolean: it
    has no effect on any store. *)
Theorem isConnected_spec (job : Job) (dag : JobDag) (source target : Point) :
  jobDag job = Some dag →
  let edgeMap := default [] (pipelineEdges dag) in
  (∃ b, isConnected job source target = Ok b ∧
        (b = true ↔
         ∃ key edges e, (key, edges) ∈ edgeMap ∧ e ∈ edges ∧
           inputVertexId e = ToString (vertexId (vertex source)) ∧
           targetVertexId e = ToString (vertexId (vertex target)))) ∧
  (∀ i j, scanPipelines source target edgeMap = Some (i, j) →
     (∃ key edges e, edgeMap !! i = Some (key, edges) ∧ edges !! j = Some e ∧
                     edgeMatches source target e = true) ∧
     (∀ i' j' key edges e,
         edgeMap !! i' = Some (key, edges) → edges !! j' = Some e →
         (i' < i)%nat ∨ (i' = i ∧ (j' < j)%nat) →
         edgeMatches source target e = false)) ∧
  (pipelineEdges dag = None → isConnected job source target = Ok false).
Proof.
  intros Hdag edgeMap. split; [|split].
  - by apply isConnected_value.
  - intros i j. apply scanPipelines_Some.
  - intros Hnone. rewrite (isConnected_Ok _ _ _ _ Hdag), Hnone. done.
Qed.

(** ** The row layout never fails on a job whose DAG snapshot is present *)

Lemma lookup_alter_row (f : Point → Point) (pts : list Point) (i j : nat) :
  (∀ point, row (f point) = row point) →
  row <$> alter f i pts !! j = row <$> pts !! j.
Proof.
  intros Hf. rewrite list_lookup_alter. case_decide as Heq; [subst j|done].
  rewrite <- option_fmap_compose. apply option_fmap_ext. intros point. apply Hf.
Qed.

Lemma lookup_alter_vertex (f : Point → Point) (pts : list Point) (i : nat) :
  (∀ point, vertex (f point) = vertex point) →
  vertex <$> alter f i pts = vertex <$> pts.
Proof.
  intros Hf. apply list_eq. intros j.
  rewrite !list_lookup_fmap, list_lookup_alter. case_decide as Heq; [subst j|done].
  rewrite <- option_fmap_compose. apply option_fmap_ext. intros point. apply Hf.
Qed.

Section layout_total.
Context (job : Job) (dag : JobDag) (Hdag : jobDag job = Some dag).

Lemma findInRow_Ok (pts : list Point) (item : Point) (r : list nat) :
  (∀ p, p ∈ r → is_Some (pts !! p)) →
  ∃ found, findInRow job pts item r = Ok found ∧
           ∀ p, found = Some p → p ∈ r.
Proof.
  induction r as [|p r IH]; intros Hr; simpl.
  - exists None. split; [done | intros ? [=]].
  - destruct (Hr p) as [point Hp]; [apply list_elem_of_here |].
    unfold deref. rewrite Hp. simpl.
    rewrite (isConnected_Ok _ _ _ _ Hdag). simpl.
    destruct (scanPipelines point item _).
    + exists (Some p). split; [done |]. intros ? [= <-]. apply list_elem_of_here.
    + destruct IH as (found & -> & Hin).
      { intros q Hq. apply Hr. by apply list_elem_of_further. }
      exists found. split; [done |]. intros q Hq.
      apply list_elem_of_further. by apply Hin.
Qed.

Lemma findInRows_Ok (pts : list Point) (item : Point) (rows : list (list nat)) :
  (∀ cells p, cells ∈ rows → p ∈ cells → is_Some (pts !! p)) →
  ∃ found, findInRows job pts item rows = Ok found ∧
           ∀ p, found = Some p → ∃ cells, cells ∈ rows ∧ p ∈ cells.
Proof.
  induction rows as [|r rows IH]; intros Hrows; simpl.
  - exists None. split; [done | intros ? [=]].
  - destruct (findInRow_Ok pts item r) as (found & -> & Hin).
    { intros p Hp. apply (Hrows r); [apply list_elem_of_here | done]. }
    simpl. destruct found as [p|].
    + exists (Some p). split; [done |]. intros ? [= <-].
      exists r. split; [apply list_elem_of_here | by apply Hin].
    + destruct IH as (found & -> & Hfound).
      { intros cells p Hc. apply Hrows. by apply list_elem_of_further. }
      exists found. split; [done |]. intros p Hp.
      destruct (Hfound p Hp) as (cells & Hc & Hpc).
      exists cells. split; [by apply list_elem_of_further | done].
Qed.

Lemma wf_allocated (st : Store) (cells : list nat) (p : nat) :
  wf st → cells ∈ matrix st → p ∈ cells → is_Some (points st !! p).
Proof.
  intros Hwf Hc Hp. destruct (Hwf cells p Hc Hp) as (r & Hr & _).
  apply fmap_Some in Hr as (point & -> & _). done.
Qed.

Lemma wf_newRow (st : Store) (i : nat) :
  wf st → is_Some (points st !! i) → wf (newRow i st).
Proof.
  intros Hwf [point Hi] cells p. unfold newRow. simpl.
  rewrite length_app. simpl. rewrite list_lookup_alter.
  intros [Hc|Hc%list_elem_of_singleton]%elem_of_app Hp.
  - destruct (Hwf cells p Hc Hp) as (r & Hr & Hlt).
    case_decide as Heq.
    + subst p. rewrite Hi. simpl. eexists. split; [done | lia].
    + exists r. split; [done | lia].
  - subst cells. apply list_elem_of_singleton in Hp as ->.
    rewrite decide_True by done. rewrite Hi. simpl.
    eexists. split; [done | lia].
Qed.

Lemma wf_alter_points (st : Store) (f : Point → Point) (p : nat) :
  (∀ point, row (f point) = row point) →
  wf st → wf {| points := alter f p (points st); matrix := matrix st |}.
Proof.
  intros Hf Hwf cells q Hc Hq. simpl in *.
  rewrite (lookup_alter_row _ _ _ _ Hf). by apply (Hwf cells).
Qed.

Lemma place_Ok (st : Store) (i : nat) :
  wf st → is_Some (points st !! i) →
  ∃ st', place job st i = Ok st' ∧ wf st' ∧
         length (points st') = length (points st) ∧
         vertex <$> points st' = vertex <$> points st.
Proof.
  intros Hwf [point Hi]. unfold place, deref. rewrite Hi. simpl.
  destruct (findInRows_Ok (points st) point (matrix st)) as (found & Hfound & Hin).
  { intros cells p. by apply wf_allocated. }
  unfold findPrevious. rewrite Hfound. simpl. destruct found as [p|].
  - destruct (Hin p eq_refl) as (cells & Hcells & Hp).
    destruct (Hwf cells p Hcells Hp) as (r & Hr & Hlt).
    apply fmap_Some in Hr as (prev & Hprev & Hrow). rewrite Hprev. simpl.
    case_bool_decide as Hnext.
    + eexists. split; [done |]. split; [|split].
      * apply wf_newRow; simpl.
        -- by apply (wf_alter_points st (push_next i) p).
        -- rewrite list_lookup_alter. case_decide; [subst; by rewrite Hi | by rewrite Hi].
      * simpl. by rewrite !length_alter.
      * simpl. by rewrite !lookup_alter_vertex.
    + assert (row <$> alter (set_next [i]) p
                        (alter (set_row (row prev)) i (points st)) !! p
              = Some (Some r)) as Hr'.
      { rewrite lookup_alter_row by done. rewrite list_lookup_alter.
        case_decide as Heq; [subst p; rewrite Hi | rewrite Hprev]; simpl;
          by rewrite <- Hrow. }
      apply fmap_Some in Hr' as (prev' & Hprev' & Hrow').
      rewrite Hprev'. simpl. rewrite <- Hrow'.
      rewrite bool_decide_eq_true_2 by done.
      eexists. split; [done |]. split; [|split].
      * intros cells' q. simpl. rewrite length_alter.
        rewrite lookup_alter_row by done. rewrite list_lookup_alter.
        intros (k & Hk)%list_elem_of_lookup Hq.
        assert (q = i ∨ ∃ old, old ∈ matrix st ∧ q ∈ old) as [->|(old & Hold & Hqo)].
        { rewrite list_lookup_alter in Hk. case_decide as Heq.
          - subst k. apply fmap_Some in Hk as (old & Hold & ->).
            apply elem_of_app in Hq as [Hq|Hq%list_elem_of_singleton]; [|by left].
            right. exists old. split; [by eapply list_elem_of_lookup_2 | done].
          - right. exists cells'. split; [by eapply list_elem_of_lookup_2 | done]. }
        -- rewrite decide_True by done. rewrite Hi. simpl.
           exists r. by rewrite <- Hrow.
        -- case_decide as Heq.
           ++ rewrite Hi. simpl. exists r. by rewrite <- Hrow.
           ++ by apply (Hwf old).
      * simpl. by rewrite !length_alter.
      * simpl. by rewrite !lookup_alter_vertex.
  - eexists. split; [done |]. split; [|split].
    + apply wf_newRow; [done | by rewrite Hi].
    + simpl. by rewrite length_alter.
    + simpl. by rewrite lookup_alter_vertex.
Qed.

Lemma forEach_Ok (addrs : list nat) (st : Store) :
  wf st → (∀ i, i ∈ addrs → (i < length (points st))%nat) →
  ∃ st', forEach job st addrs = Ok st' ∧ wf st' ∧
         vertex <$> points st' = vertex <$> points st.
Proof.
  revert st. induction addrs as [|i addrs IH]; intros st Hwf Haddrs; simpl.
  - by exists st.
  - destruct (place_Ok st i Hwf) as (st1 & -> & Hwf1 & Hlen & Hv).
    { apply lookup_lt_is_Some. apply Haddrs. apply list_elem_of_here. }
    simpl. destruct (IH st1 Hwf1) as (st' & -> & Hwf' & Hv').
    { intros k Hk. rewrite Hlen. apply Haddrs. by apply list_elem_of_further. }
    exists st'. by rewrite Hv', Hv.
Qed.

Lemma buildMatrix_total :
  ∃ st, buildMatrix job = Ok st ∧ wf st ∧
        vertex <$> points st = default [] (vertexInfoMap dag).
Proof.
  unfold buildMatrix.
  destruct (forEach_Ok (seq 0 (length (initialPoints job)))
              {| points := initialPoints job; matrix := [] |})
    as (st & Hst & Hwf & Hv).
  - intros cells p Hc. by apply elem_of_nil in Hc.
  - intros i Hi. apply elem_of_seq in Hi. simpl. lia.
  - exists st. split; [done |]. split; [done |]. rewrite Hv. simpl.
    unfold initialPoints. rewrite Hdag.
    destruct (vertexInfoMap dag) as [vs|]; simpl; [|done].
    rewrite <- list_fmap_compose. apply list_fmap_id.
Qed.

Lemma derefRow_Ok (pts : list Point) (r : list nat) :
  (∀ p, p ∈ r → is_Some (pts !! p)) →
  ∃ cells, derefRow pts r = Ok cells ∧ Forall2 (λ p point, pts !! p = Some point) r cells.
Proof.
  induction r as [|p r IH]; intros Hr; simpl.
  - by exists [].
  - destruct (Hr p) as [point Hp]; [apply list_elem_of_here |].
    unfold deref. rewrite Hp. simpl.
    destruct IH as (cells & -> & Hcells).
    { intros q Hq. apply Hr. by apply list_elem_of_further. }
    simpl. exists (point :: cells). split; [done |]. by constructor.
Qed.

Lemma derefRows_Ok (pts : list Point) (rows : list (list nat)) :
  (∀ cells p, cells ∈ rows → p ∈ cells → is_Some (pts !! p)) →
  ∃ grid, derefRows pts rows = Ok grid ∧
          Forall2 (Forall2 (λ p point, pts !! p = Some point)) rows grid.
Proof.
  induction rows as [|r rows IH]; intros Hrows; simpl.
  - by exists [].
  - destruct (derefRow_Ok pts r) as (cells & -> & Hcells).
    { intros p. apply Hrows. apply list_elem_of_here. }
    simpl. destruct IH as (grid & -> & Hgrid).
    { intros cells' p Hc. apply Hrows. by apply list_elem_of_further. }
    simpl. exists (cells :: grid). split; [done |]. by constructor.
Qed.

Lemma layout_total : ∃ grid, layout job = Ok grid.
Proof.
  destruct buildMatrix_total as (st & Hst & Hwf & _).
  unfold layout. rewrite Hst. simpl.
  destruct (derefRows_Ok (points st) (matrix st)) as (grid & Hgrid & _).
  { intros cells p. by apply wf_allocated. }
  by exists grid.
Qed.

Lemma init_total :
  ∃ grid, layout job = Ok grid ∧
    init job = Ok (nodeItems (statusOf job) grid
                   ++ (edgeItems (default [] (pipelineEdges dag)) 0).1).
Proof.
  destruct layout_total as (grid & Hgrid). exists grid. split; [done |].
  unfold layout in Hgrid. unfold init.
  destruct (buildMatrix job) as [st|]; [|done]. simpl in *.
  rewrite Hgrid. simpl. unfold edgeMapOf. by rewrite Hdag.
Qed.

End layout_total.

Arguments isConnected : simpl never.

(** ** The row layout on a chain and on a fan-out *)

Section three_vertices.
Context (job : Job) (dag : JobDag) (A B C : Vertex).
Context (Hdag : jobDag job = Some dag).
Context (Hvs : vertexInfoMap dag = Some [A; B; C]).

Lemma isConnected_edgeOf (P Q : Point) (e1 e2 : Edge) :
  (∀ e, (∃ key edges, (key, edges) ∈ default [] (pipelineEdges dag) ∧ e ∈ edges)
        ↔ e = e1 ∨ e = e2) →
  isConnected job P Q =
    Ok (bool_decide (edgeOf (vertex P) (vertex Q) = e1
                     ∨ edgeOf (vertex P) (vertex Q) = e2)).
Proof.
  intros Hedges.
  destruct (isConnected_value job dag P Q Hdag) as (b & -> & Hb).
  f_equal. apply eq_true_iff_eq. rewrite Hb, bool_decide_eq_true.
  rewrite <- Hedges. split.
  - intros (key & edges & e & Hin & He & Hi & Ht). exists key, edges.
    split; [done |]. destruct e as [ei et]. simpl in *. subst. done.
  - intros (key & edges & Hin & He). by exists key, edges, (edgeOf (vertex P) (vertex Q)).
Qed.

Lemma edgeOf_eq (u v u' v' : Vertex) :
  edgeOf u v = edgeOf u' v' ↔ vertexId u = vertexId u' ∧ vertexId v = vertexId v'.
Proof.
  unfold edgeOf. split.
  - intros [= H1%ToString_inj H2%ToString_inj]. done.
  - intros [-> ->]. done.
Qed.

(** Evaluate the call of [isConnected] on the points of [U] and [V] from
    the set of edges. *)
Ltac connected Hedges U V :=
  unfold set_row, set_next, push_next; simpl;
  rewrite (isConnected_edgeOf (mkPoint U _ _) (mkPoint V _ _) _ _ Hedges); simpl;
  first [ rewrite bool_decide_eq_true_2 by (first [by left | by right])
        | rewrite bool_decide_eq_false_2
            by (rewrite !edgeOf_eq; intros [[? ?]|[? ?]]; congruence) ];
  simpl.

Lemma layout_chain_grid :
  vertexId A ≠ vertexId B → vertexId B ≠ vertexId C →
  (∀ e, (∃ key edges, (key, edges) ∈ default [] (pipelineEdges dag) ∧ e ∈ edges)
        ↔ e = edgeOf A B ∨ e = edgeOf B C) →
  layout job = Ok [[ {| vertex := A; next := [1%nat]; row := Some 0%nat |};
                     {| vertex := B; next := [2%nat]; row := Some 0%nat |};
                     {| vertex := C; next := []; row := Some 0%nat |} ]].
Proof.
  intros Hab Hbc Hedges.
  unfold layout, buildMatrix, initialPoints. rewrite Hdag, Hvs. simpl.
  unfold place, findPrevious. simpl.
  (* B: the scan meets A, which connects to B and has no successor yet;
     C: the scan passes A, not connected to C, and stops at B *)
  connected Hedges A B. connected Hedges A C. connected Hedges B C. done.
Qed.

Lemma layout_fanout_grid :
  (∀ e, (∃ key edges, (key, edges) ∈ default [] (pipelineEdges dag) ∧ e ∈ edges)
        ↔ e = edgeOf A B ∨ e = edgeOf A C) →
  layout job = Ok [[ {| vertex := A; next := [1%nat; 2%nat]; row := Some 0%nat |};
                     {| vertex := B; next := []; row := Some 0%nat |} ];
                   [ {| vertex := C; next := []; row := Some 1%nat |} ]].
Proof.
  intros Hedges.
  unfold layout, buildMatrix, initialPoints. rewrite Hdag, Hvs. simpl.
  unfold place, findPrevious. simpl.
  (* B: appended to the row of A;
     C: the scan stops at A, which already has the successor B *)
  connected Hedges A B. connected Hedges A C. done.
Qed.

End three_vertices.

Lemma edges_of_pair (key : string) (e1 e2 e : Edge) :
  (∃ key' edges, (key', edges) ∈ [(key, [e1; e2])] ∧ e ∈ edges) ↔ e = e1 ∨ e = e2.
Proof.
  split.
  - intros (key' & edges & Hin%list_elem_of_singleton & He).
    simplify_eq.
    apply elem_of_cons in He as [->|He]; [by left |].
    apply list_elem_of_singleton in He as ->. by right.
  - intros H. exists key, [e1; e2]. split; [apply list_elem_of_here |].
    destruct H as [-> | ->]; [apply list_elem_of_here |].
    apply list_elem_of_further, list_elem_of_here.
Qed.

(** C1.  A job whose vertex list is [A; B; C] and whose pipelines hold, in
    whatever grouping, exactly the edges [A → B] and [B → C] (the ids of [A]
    and [B], and of [B] and [C], being different) is laid out as the single
    row [A; B; C]. *)
Theorem layout_chain (job : Job) (dag : JobDag) (A B C : Vertex) :
  jobDag job = Some dag →
  vertexInfoMap dag = Some [A; B; C] →
  vertexId A ≠ vertexId B → vertexId B ≠ vertexId C →
  (∀ e, (∃ key edges, (key, edges) ∈ default [] (pipelineEdges dag) ∧ e ∈ edges)
        ↔ e = edgeOf A B ∨ e = edgeOf B C) →
  ∃ grid, layout job = Ok grid ∧ vertices grid = [[A; B; C]].
Proof.
  intros Hdag Hvs Hab Hbc Hedges. eexists. split.
  - by apply (layout_chain_grid job dag A B C).
  - done.
Qed.

Lemma layout_chain_witness :
  ∃ grid, layout Examples.chain = Ok grid
          ∧ vertices grid = [[Examples.A; Examples.B; Examples.C]].
Proof.
  apply (layout_chain Examples.chain Examples.chainDag).
  - reflexivity.
  - reflexivity.
  - simpl. lia.
  - simpl. lia.
  - intros e. apply edges_of_pair.
Defined.

(** C2.  A job whose vertex list is [A; B; C] and whose pipelines hold exactly
    the edges [A → B] and [A → C] is laid out as the two rows [A; B] and [C].
    In general, whenever the predecessor found for a vertex already has a
    successor, placing the vertex leaves every row as it is and adds one new
    row holding that vertex alone. *)
Theorem layout_fanout (job : Job) (dag : JobDag) (A B C : Vertex) :
  jobDag job = Some dag →
  vertexInfoMap dag = Some [A; B; C] →
  (∀ e, (∃ key edges, (key, edges) ∈ default [] (pipelineEdges dag) ∧ e ∈ edges)
        ↔ e = edgeOf A B ∨ e = edgeOf A C) →
  (∃ grid, layout job = Ok grid ∧ vertices grid = [[A; B]; [C]]) ∧
  (∀ st i point p prev,
      points st !! i = Some point →
      findPrevious job st point = Ok (Some p) →
      points st !! p = Some prev →
      next prev ≠ [] →
      ∃ st', place job st i = Ok st' ∧ matrix st' = matrix st ++ [[i]]).
Proof.
  intros Hdag Hvs Hedges. split.
  - eexists. split; [by apply (layout_fanout_grid job dag A B C) | done].
  - intros st i point p prev Hi Hfound Hp Hnext.
    unfold place, deref. rewrite Hi. simpl. rewrite Hfound. simpl.
    rewrite Hp. simpl. rewrite bool_decide_eq_true_2 by done.
    eexists. split; [done |]. done.
Qed.

Lemma layout_fanout_witness :
  (∃ grid, layout Examples.fanout = Ok grid
           ∧ vertices grid = [[Examples.A; Examples.B]; [Examples.C]]) ∧
  (∀ st i point p prev,
      points st !! i = Some point →
      findPrevious Examples.fanout st point = Ok (Some p) →
      points st !! p = Some prev →
      next prev ≠ [] →
      ∃ st', place Examples.fanout st i = Ok st' ∧ matrix st' = matrix st ++ [[i]]).
Proof.
  apply (layout_fanout Examples.fanout Examples.fanoutDag).
  - reflexivity.
  - reflexivity.
  - intros e. apply edges_of_pair.
Defined.

(** ** The scene: edge descriptors *)

Lemma elem_of_flatEdges (edgeMap : list (string * list Edge)) (id : string) (edge : Edge) :
  (id, edge) ∈ flatEdges edgeMap ↔ ∃ edges, (id, edges) ∈ edgeMap ∧ edge ∈ edges.
Proof.
  induction edgeMap as [|[id0 edges0] edgeMap IH]; simpl.
  - split; [intros H; by apply elem_of_nil in H |].
    intros (edges & H & _). by apply elem_of_nil in H.
  - rewrite elem_of_app, list_elem_of_fmap, IH. split.
    + intros [(edge' & Heq & Hin)|(edges & Hin & He)].
      * simplify_eq. exists edges0. split; [apply list_elem_of_here | done].
      * exists edges. split; [by apply list_elem_of_further | done].
    + intros (edges & Hin & He). apply elem_of_cons in Hin as [Heq|Hin].
      * simplify_eq. left. by exists edge.
      * right. by exists edges.
Qed.

Lemma pipelineItems_spec (id : string) (edges : list Edge) (z : Z) :
  (∀ n, (pipelineItems id edges z).1 !! n
        = (λ edge, edgeItem id edge (z + Z.of_nat n)) <$> edges !! n) ∧
  (pipelineItems id edges z).2 = z + Z.of_nat (length edges).
Proof.
  revert z. induction edges as [|edge edges IH]; intros z; simpl.
  - split; [done | lia].
  - destruct (IH (z + 1)) as [Hitems Hz].
    destruct (pipelineItems id edges (z + 1)) as [items z']. simpl in *. split.
    + intros [|n]; simpl.
      * by rewrite Z.add_0_r.
      * rewrite Hitems. destruct (edges !! n); simpl; [|done].
        do 2 f_equal. lia.
    + lia.
Qed.

Lemma edgeItems_spec (edgeMap : list (string * list Edge)) (z : Z) :
  (∀ n, (edgeItems edgeMap z).1 !! n
        = (λ ke, edgeItem ke.1 ke.2 (z + Z.of_nat n)) <$> flatEdges edgeMap !! n) ∧
  (edgeItems edgeMap z).2 = z + Z.of_nat (length (flatEdges edgeMap)).
Proof.
  revert z. induction edgeMap as [|[id edges] edgeMap IH]; intros z; simpl.
  - split; [done | lia].
  - destruct (pipelineItems_spec id edges z) as [Hitems Hz].
    destruct (pipelineItems id edges z) as [items z1]. simpl in *.
    destruct (IH z1) as [Hothers Hz'].
    destruct (edgeItems edgeMap z1) as [others z2]. simpl in *.
    assert (length items = length edges) as Hlen.
    { apply Nat.le_antisymm.
      - apply Nat.nlt_ge. intros Hlt. apply lookup_lt_is_Some in Hlt as [x Hx].
        rewrite Hitems, lookup_ge_None_2 in Hx; [done | lia].
      - apply Nat.nlt_ge. intros Hlt. apply lookup_lt_is_Some in Hlt as [x Hx].
        specialize (Hitems (length items)). rewrite Hx in Hitems.
        rewrite lookup_ge_None_2 in Hitems; [done | lia]. }
    split.
    + intros n. destruct (decide (n < length items)%nat) as [Hlt|Hge].
      * rewrite lookup_app_l by done. rewrite lookup_app_l by (by rewrite length_fmap, <- Hlen).
        rewrite Hitems, list_lookup_fmap. by destruct (edges !! n).
      * rewrite lookup_app_r by lia. rewrite lookup_app_r by (rewrite length_fmap; lia).
        rewrite Hothers, length_fmap, Hlen.
        destruct (flatEdges edgeMap !! (n - length edges)%nat); simpl; [|done].
        do 2 f_equal. lia.
    + rewrite length_app, length_fmap. lia.
Qed.

Lemma length_edgeItems (edgeMap : list (string * list Edge)) (z : Z) :
  length (edgeItems edgeMap z).1 = length (flatEdges edgeMap).
Proof.
  destruct (edgeItems_spec edgeMap z) as [Hitems _].
  apply Nat.le_antisymm.
  - apply Nat.nlt_ge. intros Hlt. apply lookup_lt_is_Some in Hlt as [x Hx].
    rewrite Hitems, lookup_ge_None_2 in Hx; [done | lia].
  - apply Nat.nlt_ge. intros Hlt. apply lookup_lt_is_Some in Hlt as [x Hx].
    specialize (Hitems (length (edgeItems edgeMap z).1)). rewrite Hx in Hitems.
    rewrite lookup_ge_None_2 in Hitems; [done | lia].
Qed.

Lemma elem_of_edgeItems (edgeMap : list (string * list Edge)) (z : Z) (item : Metadata) :
  item ∈ (edgeItems edgeMap z).1 →
  ∃ id edges edge zIndex, (id, edges) ∈ edgeMap ∧ edge ∈ edges ∧
                          item = edgeItem id edge zIndex.
Proof.
  intros (n & Hn)%list_elem_of_lookup.
  destruct (edgeItems_spec edgeMap z) as [Hitems _]. rewrite Hitems in Hn.
  apply fmap_Some in Hn as ([id edge] & Hke & ->).
  apply list_elem_of_lookup_2, elem_of_flatEdges in Hke as (edges & Hin & He).
  by exists id, edges, edge, (z + Z.of_nat n).
Qed.

Lemma edgeItems_elem_of (edgeMap : list (string * list Edge)) (z : Z)
    (id : string) (edges : list Edge) (edge : Edge) :
  (id, edges) ∈ edgeMap → edge ∈ edges →
  ∃ zIndex, edgeItem id edge zIndex ∈ (edgeItems edgeMap z).1.
Proof.
  intros Hin He.
  assert ((id, edge) ∈ flatEdges edgeMap) as (n & Hn)%list_elem_of_lookup
    by (apply elem_of_flatEdges; by exists edges).
  exists (z + Z.of_nat n). apply list_elem_of_lookup. exists n.
  destruct (edgeItems_spec edgeMap z) as [-> _]. by rewrite Hn.
Qed.

Lemma nodesOf_app (l1 l2 : list Metadata) : nodesOf (l1 ++ l2) = nodesOf l1 ++ nodesOf l2.
Proof. apply omap_app. Qed.
Lemma edgesOf_app (l1 l2 : list Metadata) : edgesOf (l1 ++ l2) = edgesOf l1 ++ edgesOf l2.
Proof. apply omap_app. Qed.

Lemma nodesOf_cons_node (n : NodeMeta.t) (items : list Metadata) :
  nodesOf (DagNode n :: items) = n :: nodesOf items.
Proof. done. Qed.
Lemma nodesOf_cons_edge (e : EdgeMeta.t) (items : list Metadata) :
  nodesOf (DagEdge e :: items) = nodesOf items.
Proof. done. Qed.
Lemma edgesOf_cons_node (n : NodeMeta.t) (items : list Metadata) :
  edgesOf (DagNode n :: items) = edgesOf items.
Proof. done. Qed.
Lemma edgesOf_cons_edge (e : EdgeMeta.t) (items : list Metadata) :
  edgesOf (DagEdge e :: items) = e :: edgesOf items.
Proof. done. Qed.

Lemma edgesOf_edges (items : list Metadata) :
  (∀ item, item ∈ items → ∃ e, item = DagEdge e) →
  length (edgesOf items) = length items ∧ nodesOf items = [].
Proof.
  induction items as [|item items IH]; intros Hall; [done |].
  destruct (Hall item) as [e ->]; [apply list_elem_of_here |].
  destruct IH as [Hlen Hnodes].
  { intros item' Hin. apply Hall. by apply list_elem_of_further. }
  rewrite edgesOf_cons_edge, nodesOf_cons_edge. simpl. by rewrite Hlen.
Qed.

Lemma nodesOf_nodes (items : list Metadata) :
  (∀ item, item ∈ items → ∃ n, item = DagNode n) →
  length (nodesOf items) = length items ∧ edgesOf items = [].
Proof.
  induction items as [|item items IH]; intros Hall; [done |].
  destruct (Hall item) as [n ->]; [apply list_elem_of_here |].
  destruct IH as [Hlen Hedges].
  { intros item' Hin. apply Hall. by apply list_elem_of_further. }
  rewrite edgesOf_cons_node, nodesOf_cons_node. simpl. by rewrite Hlen.
Qed.

Lemma edgeItems_edges (edgeMap : list (string * list Edge)) (z : Z) :
  length (edgesOf (edgeItems edgeMap z).1) = length (flatEdges edgeMap) ∧
  nodesOf (edgeItems edgeMap z).1 = [].
Proof.
  rewrite <- (length_edgeItems edgeMap z). apply edgesOf_edges.
  intros item (id & edges & edge & zi & _ & _ & ->)%elem_of_edgeItems.
  by eexists.
Qed.

(** ** The scene: node descriptors *)

Section rows_of_items.
Context {A B : Type}.

Lemma length_concat_imap (F : nat → list A → list B) (grid : list (list A)) :
  (∀ r cells, length (F r cells) = length cells) →
  length (concat (imap F grid)) = length (concat grid).
Proof.
  revert F. induction grid as [|cells grid IH]; intros F HF; [done |].
  rewrite imap_cons. simpl. rewrite !length_app, HF, IH; [done |].
  intros r cells'. apply HF.
Qed.

Lemma lookup_concat_imap (F : nat → list A → list B) (grid : list (list A))
    (r c : nat) (cells : list A) :
  (∀ r cells, length (F r cells) = length cells) →
  grid !! r = Some cells → (c < length cells)%nat →
  concat (imap F grid) !! (length (concat (take r grid)) + c)%nat = F r cells !! c.
Proof.
  revert F r. induction grid as [|cells0 grid IH]; intros F r HF Hr Hc; [done |].
  rewrite imap_cons. destruct r as [|r]; simpl in *.
  - injection Hr as ->. apply lookup_app_l. by rewrite HF.
  - rewrite length_app, lookup_app_r by (rewrite HF; lia).
    rewrite HF. replace (length cells0 + length (concat (take r grid)) + c
                         - length cells0)%nat
      with (length (concat (take r grid)) + c)%nat by lia.
    apply (IH (F ∘ S)); [intros; apply HF | done | done].
Qed.

Lemma elem_of_concat (ls : list (list B)) (x : B) :
  x ∈ concat ls ↔ ∃ l, l ∈ ls ∧ x ∈ l.
Proof.
  induction ls as [|l0 ls IH]; simpl.
  - split; [intros H; by apply elem_of_nil in H |].
    intros (l & H & _). by apply elem_of_nil in H.
  - rewrite elem_of_app, IH. split.
    + intros [H|(l & Hl & Hx)].
      * exists l0. split; [apply list_elem_of_here | done].
      * exists l. split; [by apply list_elem_of_further | done].
    + intros (l & [-> | Hl]%elem_of_cons & Hx); [by left |].
      right. by exists l.
Qed.

End rows_of_items.

Lemma length_nodeItems (status : string) (grid : list (list Point)) :
  length (nodeItems status grid) = length (concat grid).
Proof.
  unfold nodeItems. apply length_concat_imap. intros r cells. apply length_imap.
Qed.

Lemma lookup_nodeItems (status : string) (grid : list (list Point))
    (r c : nat) (cells : list Point) (item : Point) :
  grid !! r = Some cells → cells !! c = Some item →
  nodeItems status grid !! (length (concat (take r grid)) + c)%nat
  = Some (nodeItem status r (length cells) c item).
Proof.
  intros Hr Hc. unfold nodeItems.
  rewrite (lookup_concat_imap _ grid r c cells).
  - by rewrite list_lookup_imap, Hc.
  - intros r' cells'. apply length_imap.
  - done.
  - by eapply lookup_lt_Some.
Qed.

Lemma elem_of_nodeItems (status : string) (grid : list (list Point)) (item : Metadata) :
  item ∈ nodeItems status grid →
  ∃ r c cells point, grid !! r = Some cells ∧ cells !! c = Some point ∧
                     item = nodeItem status r (length cells) c point.
Proof.
  unfold nodeItems.
  intros (l & (r & cells & -> & Hr)%elem_of_lookup_imap_1 & Hin)%elem_of_concat.
  apply elem_of_lookup_imap_1 in Hin as (c & point & -> & Hc).
  by exists r, c, cells, point.
Qed.

Lemma nodeItems_nodes (status : string) (grid : list (list Point)) :
  length (nodesOf (nodeItems status grid)) = length (concat grid) ∧
  edgesOf (nodeItems status grid) = [].
Proof.
  rewrite <- (length_nodeItems status grid).
  apply nodesOf_nodes. intros item (r & c & cells & point & _ & _ & ->)%elem_of_nodeItems.
  by eexists.
Qed.

Lemma nodeItem_ports (status : string) (r len c : nat) (item : Point) :
  let n := nodeMeta status r len c item in
  NodeMeta.id n = "node-" +:+ ToString (vertexId (vertex item)) ∧
  NodeMeta.x n = Z.of_nat c * 540 ∧
  NodeMeta.y n = Z.of_nat r * 140 ∧
  ("left" ∈ portGroups n ↔ Z.of_nat c ≠ 0) ∧
  ("right" ∈ portGroups n ↔ Z.of_nat c ≠ Z.of_nat len - 1) ∧
  (∀ p, p ∈ NodeMeta.ports n →
        (Port.group p = "left" ∨ Port.group p = "right") ∧
        Port.id p = NodeMeta.id n +:+ "-" +:+ Port.group p).
Proof.
  unfold nodeMeta, portGroups. simpl.
  split; [done |]. split; [done |]. split; [done |].
  do 2 case_bool_decide; simpl;
    rewrite ?elem_of_cons, ?elem_of_nil;
    (split; [split; [by intros; destruct_or? | by auto] |]);
    (split; [split; [by intros; destruct_or? | by auto] |]);
    intros p; rewrite ?elem_of_cons, ?elem_of_nil;
    intros Hp; destruct_or?; subst; simpl; try done;
    (split; [auto | done]).
Qed.

(** C7.  On a job whose DAG snapshot is present the scene has one node
    descriptor for every cell of the layout grid and, for the vertex at column
    [c] of row [r], that descriptor (the one at the cell's position in
    row-major order) has id [node-<vertexId>], position x = c × 540 and
    y = r × 140, a port of group [left] exactly when [c ≠ 0] and a port of
    group [right] exactly when [c] is not the last column of the row; its
    ports are named after the node and the group. *)
Theorem node_ports_positions (job : Job) (dag : JobDag) :
  jobDag job = Some dag →
  ∃ grid items,
    layout job = Ok grid ∧ init job = Ok items ∧
    length (nodesOf items) = length (concat grid) ∧
    ∀ r c cells item,
      grid !! r = Some cells → cells !! c = Some item →
      ∃ n, items !! (length (concat (take r grid)) + c)%nat = Some (DagNode n) ∧
           NodeMeta.id n = "node-" +:+ ToString (vertexId (vertex item)) ∧
           NodeMeta.x n = Z.of_nat c * 540 ∧
           NodeMeta.y n = Z.of_nat r * 140 ∧
           ("left" ∈ portGroups n ↔ c ≠ 0%nat) ∧
           ("right" ∈ portGroups n ↔ c ≠ (length cells - 1)%nat) ∧
           (∀ p, p ∈ NodeMeta.ports n →
                 (Port.group p = "left" ∨ Port.group p = "right") ∧
                 Port.id p = NodeMeta.id n +:+ "-" +:+ Port.group p).
Proof.
  intros Hdag. destruct (init_total job dag Hdag) as (grid & Hgrid & Hinit).
  exists grid. eexists. split; [done |]. split; [done |]. split.
  - rewrite nodesOf_app.
    destruct (edgeItems_edges (default [] (pipelineEdges dag)) 0) as [_ ->].
    rewrite app_nil_r. apply nodeItems_nodes.
  - intros r c cells item Hr Hc.
    assert (c < length cells)%nat as Hlt by (by eapply lookup_lt_Some).
    exists (nodeMeta (statusOf job) r (length cells) c item). split.
    { rewrite lookup_app_l.
      - by apply lookup_nodeItems.
      - rewrite length_nodeItems.
        rewrite <- (take_drop_middle grid r cells Hr) at 2.
        rewrite concat_app, length_app. simpl. rewrite length_app. lia. }
    destruct (nodeItem_ports (statusOf job) r (length cells) c item)
      as (Hid & Hx & Hy & Hleft & Hright & Hports).
    rewrite Hleft, Hright.
    split; [done |]. split; [done |]. split; [done |].
    split; [lia |]. split; [lia | done].
Qed.

Lemma node_ports_positions_witness :
  ∃ grid items,
    layout Examples.fanout = Ok grid ∧ init Examples.fanout = Ok items ∧
    length (nodesOf items) = length (concat grid) ∧
    ∀ r c cells item,
      grid !! r = Some cells → cells !! c = Some item →
      ∃ n, items !! (length (concat (take r grid)) + c)%nat = Some (DagNode n) ∧
           NodeMeta.id n = "node-" +:+ ToString (vertexId (vertex item)) ∧
           NodeMeta.x n = Z.of_nat c * 540 ∧
           NodeMeta.y n = Z.of_nat r * 140 ∧
           ("left" ∈ portGroups n ↔ c ≠ 0%nat) ∧
           ("right" ∈ portGroups n ↔ c ≠ (length cells - 1)%nat) ∧
           (∀ p, p ∈ NodeMeta.ports n →
                 (Port.group p = "left" ∨ Port.group p = "right") ∧
                 Port.id p = NodeMeta.id n +:+ "-" +:+ Port.group p).
Proof.
  apply (node_ports_positions Examples.fanout Examples.fanoutDag). reflexivity.
Defined.

(** ** The scene of a job without vertices *)

(** C5, as stated, fails: with an empty vertex list and one edge in the edge
    map the scene has no node descriptor but one edge descriptor. *)
Lemma edges_without_vertices :
  vertexInfoMap EdgesOnly.dag = Some [] ∧
  init EdgesOnly.job =
    Ok [DagEdge {| EdgeMeta.id := "edge-1";
                   EdgeMeta.source := {| Terminal.cell := "node-1";
                                         Terminal.port := "node-1-right" |};
                   EdgeMeta.target := {| Terminal.cell := "node-2";
                                         Terminal.port := "node-2-left" |};
                   EdgeMeta.zIndex := 0 |}].
Proof. split; reflexivity. Qed.

(** C5, amended.  For every job whose DAG snapshot is present and whose vertex
    list is empty or absent, the scene has no node descriptor and exactly one
    edge descriptor for each edge of the edge map, so none when the edge map
    is absent or has no edge. *)
Theorem empty_vertices_scene (job : Job) (dag : JobDag) :
  jobDag job = Some dag →
  vertexInfoMap dag = Some [] ∨ vertexInfoMap dag = None →
  ∃ items, init job = Ok items ∧
           nodesOf items = [] ∧
           length (edgesOf items)
           = length (flatEdges (default [] (pipelineEdges dag))) ∧
           (pipelineEdges dag = None → items = []).
Proof.
  intros Hdag Hvs. exists (edgeItems (default [] (pipelineEdges dag)) 0).1. split.
  - unfold init, buildMatrix, initialPoints, edgeMapOf. rewrite Hdag.
    destruct Hvs as [-> | ->]; simpl; reflexivity.
  - destruct (edgeItems_edges (default [] (pipelineEdges dag)) 0) as [Hlen Hnodes].
    split; [done |]. split; [done |]. by intros ->.
Qed.

Lemma empty_vertices_scene_witness :
  ∃ items, init EdgesOnly.job = Ok items ∧
           nodesOf items = [] ∧
           length (edgesOf items)
           = length (flatEdges (default [] (pipelineEdges EdgesOnly.dag))) ∧
           (pipelineEdges EdgesOnly.dag = None → items = []).
Proof.
  apply (empty_vertices_scene EdgesOnly.job EdgesOnly.dag).
  - reflexivity.
  - left. reflexivity.
Defined.

(** ** Edge identifiers and draw order *)

Lemma edgesOf_imap (g : nat → string * Edge → EdgeMeta.t) (l : list (string * Edge)) :
  edgesOf (imap (λ n ke, DagEdge (g n ke)) l) = imap g l.
Proof.
  revert g. induction l as [|x l IH]; intros g; [done |].
  rewrite !imap_cons, edgesOf_cons_edge. f_equal. apply (IH (g ∘ S)).
Qed.

(** X13.  Edge descriptors come in pipeline-then-array order, the one at position
    [n] with draw-order index [n]; its identifier is made from the pipeline
    key alone. *)
Lemma edge_order_zIndex (job : Job) (dag : JobDag) :
  jobDag job = Some dag →
  ∃ items, init job = Ok items ∧
    ∀ n, edgesOf items !! n
         = (λ ke, edgeMeta ke.1 ke.2 (Z.of_nat n))
           <$> flatEdges (default [] (pipelineEdges dag)) !! n.
Proof.
  intros Hdag. destruct (init_total job dag Hdag) as (grid & _ & Hinit).
  eexists. split; [done |]. intros n.
  rewrite edgesOf_app. destruct (nodeItems_nodes (statusOf job) grid) as [_ ->].
  simpl. generalize (default [] (pipelineEdges dag)). intros edgeMap.
  destruct (edgeItems_spec edgeMap 0) as [Hitems _].
  assert ((edgeItems edgeMap 0).1
          = imap (λ n ke, DagEdge (edgeMeta ke.1 ke.2 (Z.of_nat n))) (flatEdges edgeMap))
    as ->.
  { apply list_eq. intros k. by rewrite Hitems, list_lookup_imap. }
  by rewrite edgesOf_imap, list_lookup_imap.
Qed.

(** C6: on the chain, whose one pipeline has two edges, both edge descriptors
    get the identifier [edge-1]; they differ in their ends and in their
    draw-order indices 0 and 1. *)
Theorem edge_ids_collide :
  ∃ items e1 e2,
    init Examples.chain = Ok items ∧ edgesOf items = [e1; e2] ∧
    EdgeMeta.id e1 = "edge-1" ∧ EdgeMeta.id e2 = "edge-1" ∧
    EdgeMeta.target e1 ≠ EdgeMeta.target e2 ∧
    EdgeMeta.zIndex e1 = 0 ∧ EdgeMeta.zIndex e2 = 1.
Proof.
  eexists _, _, _. split; [reflexivity |]. split; [reflexivity |]. simpl.
  repeat split; done.
Qed.

(** ** Edge ends and the ports of the nodes they name *)

Lemma node_id_inj (m n : Z) :
  "node-" +:+ ToString m = "node-" +:+ ToString n → m = n.
Proof. intros H%string_app_inj_l. by apply ToString_inj. Qed.

Lemma elem_of_edgesOf (items : list Metadata) (e : EdgeMeta.t) :
  e ∈ edgesOf items ↔ DagEdge e ∈ items.
Proof.
  unfold edgesOf. rewrite list_elem_of_omap. split.
  - intros ([n|e'] & Hin & [= <-]). done.
  - intros Hin. by exists (DagEdge e).
Qed.

Lemma elem_of_nodesOf (items : list Metadata) (n : NodeMeta.t) :
  n ∈ nodesOf items ↔ DagNode n ∈ items.
Proof.
  unfold nodesOf. rewrite list_elem_of_omap. split.
  - intros ([n'|e] & Hin & [= <-]). done.
  - intros Hin. by exists (DagNode n).
Qed.

(** C10.  Whatever the job, every edge descriptor of the scene names port
    [node-<inputVertexId>-right] of cell [node-<inputVertexId>] as its source
    and port [node-<targetVertexId>-left] of cell [node-<targetVertexId>] as
    its target, for an edge of the edge map, and every edge of the edge map
    has such a descriptor: no test on the ports the nodes were given comes in.
    On the fan-out [A → B], [A → C] (the id of [C] differing from the two
    others), the node of [C], alone in its row, has no port at all, while an
    edge descriptor has the port [node-<C>-left] of that very cell as its
    target. *)
Theorem edge_ports_unconditional (job : Job) (dag : JobDag) (A B C : Vertex) :
  jobDag job = Some dag →
  vertexInfoMap dag = Some [A; B; C] →
  vertexId A ≠ vertexId C → vertexId B ≠ vertexId C →
  (∀ e, (∃ key edges, (key, edges) ∈ default [] (pipelineEdges dag) ∧ e ∈ edges)
        ↔ e = edgeOf A B ∨ e = edgeOf A C) →
  (∀ job' dag', jobDag job' = Some dag' →
     ∃ items, init job' = Ok items ∧
       (∀ e, e ∈ edgesOf items →
          ∃ id edges edge,
            (id, edges) ∈ default [] (pipelineEdges dag') ∧ edge ∈ edges ∧
            EdgeMeta.source e
            = {| Terminal.cell := "node-" +:+ inputVertexId edge;
                 Terminal.port := "node-" +:+ inputVertexId edge +:+ "-right" |} ∧
            EdgeMeta.target e
            = {| Terminal.cell := "node-" +:+ targetVertexId edge;
                 Terminal.port := "node-" +:+ targetVertexId edge +:+ "-left" |}) ∧
       (∀ id edges edge,
          (id, edges) ∈ default [] (pipelineEdges dag') → edge ∈ edges →
          ∃ e, e ∈ edgesOf items ∧
            EdgeMeta.source e
            = {| Terminal.cell := "node-" +:+ inputVertexId edge;
                 Terminal.port := "node-" +:+ inputVertexId edge +:+ "-right" |} ∧
            EdgeMeta.target e
            = {| Terminal.cell := "node-" +:+ targetVertexId edge;
                 Terminal.port := "node-" +:+ targetVertexId edge +:+ "-left" |})) ∧
  (∃ items n e,
     init job = Ok items ∧ n ∈ nodesOf items ∧ e ∈ edgesOf items ∧
     NodeMeta.id n = "node-" +:+ ToString (vertexId C) ∧
     NodeMeta.ports n = [] ∧
     Terminal.cell (EdgeMeta.target e) = NodeMeta.id n ∧
     Terminal.port (EdgeMeta.target e) = NodeMeta.id n +:+ "-left" ∧
     (∀ n', n' ∈ nodesOf items → NodeMeta.id n' = NodeMeta.id n →
            NodeMeta.ports n' = [])).
Proof.
  intros Hdag Hvs Hac Hbc Hedges. split.
  - intros job' dag' Hdag'.
    destruct (init_total job' dag' Hdag') as (grid & _ & Hinit).
    eexists. split; [done |]. split.
    + intros e [Hin|Hin]%elem_of_edgesOf%elem_of_app.
      * apply elem_of_nodeItems in Hin as (? & ? & ? & ? & _ & _ & [=]).
      * apply elem_of_edgeItems in Hin as (id & edges & edge & z & Hid & He & [= ->]).
        by exists id, edges, edge.
    + intros id edges edge Hid He.
      destruct (edgeItems_elem_of _ 0 id edges edge Hid He) as [z Hz].
      exists (edgeMeta id edge z). split; [|done].
      apply elem_of_edgesOf, elem_of_app. by right.
  - destruct (init_total job dag Hdag) as (grid & Hgrid & Hinit).
    rewrite (layout_fanout_grid job dag A B C Hdag Hvs Hedges) in Hgrid.
    injection Hgrid as <-.
    destruct (proj2 (Hedges (edgeOf A C))) as (key & edges & Hkey & He); [by right |].
    destruct (edgeItems_elem_of _ 0 key edges (edgeOf A C) Hkey He) as [z Hz].
    eexists _, (nodeMeta (statusOf job) 1 1 0 (mkPoint C [] (Some 1%nat))),
      (edgeMeta key (edgeOf A C) z).
    split; [done |]. split; [|split].
    { apply elem_of_nodesOf, elem_of_app. left. simpl.
      do 2 apply list_elem_of_further. apply list_elem_of_here. }
    { apply elem_of_edgesOf, elem_of_app. by right. }
    split; [done |]. split; [done |]. split; [done |]. split; [done |].
    intros n' [Hin|Hin]%elem_of_nodesOf%elem_of_app Hid.
    + unfold nodeItems, nodeItem in Hin. simpl in Hin.
      apply elem_of_cons in Hin as [Hn|Hin];
        [injection Hn as ->; by apply node_id_inj in Hid |].
      apply elem_of_cons in Hin as [Hn|Hin];
        [injection Hn as ->; by apply node_id_inj in Hid |].
      apply list_elem_of_singleton in Hin. by injection Hin as ->.
    + apply elem_of_edgeItems in Hin as (? & ? & ? & ? & _ & _ & [=]).
Qed.

Lemma edge_ports_unconditional_witness :
  ∃ items n e,
    init Examples.fanout = Ok items ∧ n ∈ nodesOf items ∧ e ∈ edgesOf items ∧
    NodeMeta.id n = "node-3" ∧ NodeMeta.ports n = [] ∧
    Terminal.cell (EdgeMeta.target e) = "node-3" ∧
    Terminal.port (EdgeMeta.target e) = "node-3-left".
Proof.
  destruct (edge_ports_unconditional Examples.fanout Examples.fanoutDag
              Examples.A Examples.B Examples.C)
    as [_ (items & n & e & Hinit & Hn & He & Hid & Hports & Hcell & Hport & _)].
  - reflexivity.
  - reflexivity.
  - simpl. lia.
  - simpl. lia.
  - intros edge. apply edges_of_pair.
  - exists items, n, e. rewrite Hid in Hcell, Hport. done.
Defined.

(** ** Jobs with absent fields *)

(** X14.  [init] throws exactly on the jobs without a DAG snapshot. *)
Lemma init_throws_iff (job : Job) : throws (init job) ↔ jobDag job = None.
Proof.
  split.
  - intros [err Herr]. destruct (jobDag job) as [dag|] eqn:Hdag; [|done].
    destruct (init_total job dag Hdag) as (grid & _ & Hinit). congruence.
  - intros Hdag. eexists. unfold init, buildMatrix, initialPoints, edgeMapOf.
    rewrite Hdag. reflexivity.
Qed.

(** Without a metrics map no cell throws. *)
Lemma reduce_no_metrics (job : Job) (key : string) (paths : list string) (s : Detail.Num) :
  metrics job = None → ∃ v, Detail.reduce job key paths s = Ok v.
Proof.
  intros Hm. revert s. induction paths as [|path paths IH]; intros s; simpl.
  - by exists s.
  - unfold Detail.metricAt. rewrite Hm. simpl. apply IH.
Qed.

(** The error of an address outside the store is never the outcome of
    [init]. *)
Lemma init_never_InvalidRef (job : Job) : init job ≠ Throw InvalidRef.
Proof.
  destruct (jobDag job) as [dag|] eqn:Hdag.
  - destruct (init_total job dag Hdag) as (grid & _ & ->). done.
  - unfold init, buildMatrix, initialPoints, edgeMapOf. rewrite Hdag. done.
Qed.

(** On the empty job the table has no row, and the cells of a source vertex
    with table paths are [NaN]. *)
Lemma empty_job_table :
  Detail.tableData emptyJob = [] ∧
  ∀ key, Detail.sourceCell emptyJob Examples.A key = Ok Detail.NaN.
Proof. split; [reflexivity | by intros []]. Qed.

(** C4: the claim fails on the code at two places.  On the empty job [init]
    throws, reading [pipelineEdges] of the absent [jobDag]; and with a metrics
    map that lacks the key, the cell of a source vertex with a table path
    throws, indexing the absent table. *)
Theorem absent_fields_throw :
  init emptyJob
  = Throw (TypeError "Cannot read properties of undefined (reading 'pipelineEdges')") ∧
  Detail.sourceCell Absent.noKeys Examples.A Detail.TableSourceReceivedBytes
  = Throw (TypeError "Cannot read properties of undefined") ∧
  Detail.sinkCell Absent.noKeys Examples.C Detail.TableSinkWriteBytes
  = Throw (TypeError "Cannot read properties of undefined").
Proof. split; [reflexivity | split; reflexivity]. Qed.

(** ** Metric cells *)

(** C8.  For a vertex of type [source] with table paths [a], [b] and a metrics
    map whose [TableSourceReceivedBytes] table has 10 at [a] and 20 at [b],
    the received-bytes cell is 30 and every sink-metric cell of the vertex is
    0; in general every source-metric cell of a vertex that is not a source
    (a sink in particular) is 0, and every sink-metric cell of a vertex that
    is not a sink is 0. *)
Theorem metric_cells (job : Job) (row : Vertex)
    (m : gmap string (gmap string Z)) (table : gmap string Z) :
  type row = "source" →
  tablePaths row = ["a"; "b"] →
  metrics job = Some m →
  m !! "TableSourceReceivedBytes" = Some table →
  table !! "a" = Some 10 → table !! "b" = Some 20 →
  Detail.sourceCell job row Detail.TableSourceReceivedBytes = Ok (Detail.Finite 30) ∧
  (∀ key, Detail.sinkCell job row key = Ok (Detail.Finite 0)) ∧
  (∀ job' row' key, type row' ≠ "source" →
                    Detail.sourceCell job' row' key = Ok (Detail.Finite 0)) ∧
  (∀ job' row' key, type row' ≠ "sink" →
                    Detail.sinkCell job' row' key = Ok (Detail.Finite 0)).
Proof.
  intros Htype Hpaths Hm Hkey Ha Hb. split; [|split; [|split]].
  - unfold Detail.sourceCell, Detail.sourceKeyName. rewrite Htype, Hpaths. simpl.
    unfold Detail.metricAt. rewrite Hm, Hkey, Ha, Hb. done.
  - intros key. unfold Detail.sinkCell. rewrite Htype. done.
  - intros job' row' key Hne. unfold Detail.sourceCell.
    by rewrite bool_decide_eq_false_2.
  - intros job' row' key Hne. unfold Detail.sinkCell.
    by rewrite bool_decide_eq_false_2.
Qed.

Lemma metric_cells_witness :
  Detail.sourceCell Metrics.job Examples.A Detail.TableSourceReceivedBytes
  = Ok (Detail.Finite 30) ∧
  (∀ key, Detail.sinkCell Metrics.job Examples.A key = Ok (Detail.Finite 0)) ∧
  (∀ job' row' key, type row' ≠ "source" →
                    Detail.sourceCell job' row' key = Ok (Detail.Finite 0)) ∧
  (∀ job' row' key, type row' ≠ "sink" →
                    Detail.sinkCell job' row' key = Ok (Detail.Finite 0)).
Proof.
  apply (metric_cells Metrics.job Examples.A Metrics.snapshot Metrics.table);
    reflexivity.
Defined.

(** ** [showNodeStatus] *)

Lemma applyStatus_Ok (snapshot : list NodeStatus.t) (graph : gmap string NodeStatus.t)
    (log : list (string * NodeStatus.t)) :
  (∀ item, item ∈ snapshot → is_Some (graph !! cellOf item)) →
  ∃ graph' calls,
    applyStatus graph snapshot log = Ok (graph', log ++ calls) ∧
    (λ call, (call.1, NodeStatus.status call.2)) <$> calls
    = (λ item, (cellOf item, NodeStatus.status item)) <$> snapshot ∧
    (∀ c, graph' !! c
          = (λ data, withStatus (default (NodeStatus.status data) (lastStatus c snapshot))
                                data) <$> graph !! c).
Proof.
  revert graph log. induction snapshot as [|item rest IH]; intros graph log Hknown; simpl.
  - exists graph, []. rewrite app_nil_r. split; [done |]. split; [done |].
    intros c. destruct (graph !! c) as [[]|]; done.
  - destruct (Hknown item) as [data Hdata]; [apply list_elem_of_here |].
    rewrite Hdata.
    destruct (IH (<[cellOf item := withStatus (NodeStatus.status item) data]> graph)
                 (log ++ [(cellOf item, withStatus (NodeStatus.status item) data)]))
      as (graph' & calls & -> & Hcalls & Hcells).
    { intros item' Hin. rewrite lookup_insert. case_decide; [done |].
      apply Hknown. by apply list_elem_of_further. }
    exists graph', ((cellOf item, withStatus (NodeStatus.status item) data) :: calls).
    split; [by rewrite <- app_assoc |].
    split; [rewrite !fmap_cons; by f_equal |].
    intros c. rewrite Hcells, lookup_insert.
    case_decide as Hc.
    + subst c. rewrite Hdata, bool_decide_eq_true_2 by done. simpl.
      by destruct (lastStatus (cellOf item) rest).
    + rewrite bool_decide_eq_false_2 by done.
      by destruct (lastStatus c rest).
Qed.

Lemma showNodeStatus_Ok (graph : gmap string NodeStatus.t)
    (statusList : list (list NodeStatus.t)) (pick : nat) (status : list NodeStatus.t) :
  statusList !! pick = Some status →
  (∀ item, item ∈ status → is_Some (graph !! cellOf item)) →
  ∃ tick,
    showNodeStatus graph statusList pick = Ok tick ∧
    setTimeout tick = Some 5000 ∧
    (λ call, (call.1, NodeStatus.status call.2)) <$> setData tick
    = (λ item, (cellOf item, NodeStatus.status item)) <$> status ∧
    (∀ c, cells tick !! c
          = (λ data, withStatus (default (NodeStatus.status data) (lastStatus c status))
                                data) <$> graph !! c).
Proof.
  intros Hpick Hknown. unfold showNodeStatus. rewrite Hpick.
  destruct (applyStatus_Ok status graph [] Hknown) as (graph' & calls & -> & Hcalls & Hcells).
  simpl. eexists. split; [done |]. done.
Qed.

Lemma graphBefore_cons (graph : gmap string NodeStatus.t) (tick : Tick)
    (ticks : list Tick) (n : nat) :
  (n < length ticks)%nat →
  graphBefore graph (tick :: ticks) (S n) = graphBefore (cells tick) ticks n.
Proof.
  intros Hn. destruct n as [|n]; [done |]. simpl.
  destruct (lookup_lt_is_Some_2 ticks n) as [t ->]; [lia | done].
Qed.

Lemma animate_steps (statusList : list (list NodeStatus.t)) (picks : list nat)
    (graph : gmap string NodeStatus.t) :
  allNodesKnown graph statusList →
  Forall (λ pick, (pick < length statusList)%nat) picks →
  ∃ ticks, animate graph statusList picks = Ok ticks ∧
           length ticks = length picks ∧
           Forall (λ tick, setTimeout tick = Some 5000) ticks ∧
           ∀ n pick tick,
             picks !! n = Some pick → ticks !! n = Some tick →
             ∃ status,
               statusList !! pick = Some status ∧
               showNodeStatus (graphBefore graph ticks n) statusList pick = Ok tick ∧
               (λ call, (call.1, NodeStatus.status call.2)) <$> setData tick
               = (λ item, (cellOf item, NodeStatus.status item)) <$> status ∧
               (∀ c, cells tick !! c
                     = (λ data, withStatus (default (NodeStatus.status data)
                                                    (lastStatus c status)) data)
                       <$> graphBefore graph ticks n !! c).
Proof.
  intros Hknown Hpicks. revert graph Hknown.
  induction Hpicks as [|pick picks Hpick Hpicks IH]; intros graph Hknown; simpl.
  - exists []. split; [done |]. split; [done |]. split; [constructor |].
    intros n p t Hp. by rewrite lookup_nil in Hp.
  - apply lookup_lt_is_Some in Hpick as [status Hstatus].
    destruct (showNodeStatus_Ok graph statusList pick status Hstatus)
      as (tick & Htick & Htimer & Hcalls & Hcells).
    { intros item. apply Hknown. by eapply list_elem_of_lookup_2. }
    rewrite Htick. simpl. rewrite Htimer.
    destruct (IH (cells tick)) as (ticks & -> & Hlen & Hall & Hsteps).
    { intros status' item Hs Hi. rewrite Hcells.
      by apply fmap_is_Some, (Hknown status'). }
    simpl. exists (tick :: ticks). split; [done |].
    split; [simpl; by f_equal |]. split; [by constructor |].
    intros [|n] p t Hp Ht.
    + simpl in Hp, Ht. simplify_eq. by exists status.
    + rewrite graphBefore_cons by (by eapply lookup_lt_Some).
      by apply Hsteps.
Qed.

(** C9.  Called with the empty sequence, [showNodeStatus] makes no call of
    [setData], leaves every cell as it is and sets no timer, so that this call
    is the only one.  Called with a sequence and a pick that selects one of
    its snapshots, all of whose updates name nodes of the graph, it calls
    [setData] once per update of that snapshot, in order, on the node the
    update names and with the update's status, leaving each cell with its id
    and label and the status of the last update naming it, and sets a timer
    of 5000 ms; and as long as every pick selects a snapshot and every update
    names a node, every call sets the timer for the next, for as many calls
    as one cares to follow, and every one of these calls is a call of
    [showNodeStatus] on the cells that the call before it left: it applies the
    snapshot its pick selects, as the single call does. *)
Theorem showNodeStatus_spec (graph : gmap string NodeStatus.t)
    (statusList : list (list NodeStatus.t)) :
  (∀ pick picks,
     showNodeStatus graph [] pick
     = Ok {| cells := graph; setData := []; setTimeout := None |} ∧
     animate graph [] (pick :: picks)
     = Ok [ {| cells := graph; setData := []; setTimeout := None |} ]) ∧
  (∀ pick status,
     statusList !! pick = Some status →
     (∀ item, item ∈ status → is_Some (graph !! cellOf item)) →
     ∃ tick,
       showNodeStatus graph statusList pick = Ok tick ∧
       setTimeout tick = Some 5000 ∧
       (λ call, (call.1, NodeStatus.status call.2)) <$> setData tick
       = (λ item, (cellOf item, NodeStatus.status item)) <$> status ∧
       (∀ c, cells tick !! c
             = (λ data, withStatus (default (NodeStatus.status data)
                                            (lastStatus c status)) data)
               <$> graph !! c)) ∧
  (∀ picks,
     allNodesKnown graph statusList →
     Forall (λ pick, (pick < length statusList)%nat) picks →
     ∃ ticks, animate graph statusList picks = Ok ticks ∧
              length ticks = length picks ∧
              Forall (λ tick, setTimeout tick = Some 5000) ticks ∧
              ∀ n pick tick,
                picks !! n = Some pick → ticks !! n = Some tick →
                ∃ status,
                  statusList !! pick = Some status ∧
                  showNodeStatus (graphBefore graph ticks n) statusList pick = Ok tick ∧
                  (λ call, (call.1, NodeStatus.status call.2)) <$> setData tick
                  = (λ item, (cellOf item, NodeStatus.status item)) <$> status ∧
                  (∀ c, cells tick !! c
                        = (λ data, withStatus (default (NodeStatus.status data)
                                                       (lastStatus c status)) data)
                          <$> graphBefore graph ticks n !! c)).
Proof.
  split; [|split].
  - intros pick picks. unfold animate, showNodeStatus.
    rewrite lookup_nil. done.
  - apply showNodeStatus_Ok.
  - intros picks Hknown Hpicks. by apply animate_steps.
Qed.

Lemma showNodeStatus_spec_witness :
  showNodeStatus Animation.graph [] 0
  = Ok {| cells := Animation.graph; setData := []; setTimeout := None |} ∧
  (∃ tick, showNodeStatus Animation.graph Animation.statusList 1 = Ok tick ∧
           setTimeout tick = Some 5000 ∧
           cells tick !! "node-2" = Some (NodeStatus.mk 2 "FAILED" (Some "B"))) ∧
  (∃ ticks, animate Animation.graph Animation.statusList [1; 0; 1]%nat = Ok ticks ∧
            length ticks = 3%nat).
Proof.
  destruct (showNodeStatus_spec Animation.graph Animation.statusList)
    as (Hempty & Hpick & Hloop).
  split; [apply (Hempty 0%nat []) |]. split.
  - destruct (Hpick 1%nat [NodeStatus.mk 2 "FAILED" None] eq_refl)
      as (tick & Htick & Htimer & _ & Hcells).
    + intros item Hitem. apply list_elem_of_singleton in Hitem.
      rewrite Hitem. vm_compute. eauto.
    + exists tick. split; [exact Htick |]. split; [exact Htimer |].
      rewrite Hcells. reflexivity.
  - destruct (Hloop [1; 0; 1]%nat) as (ticks & Hticks & Hlen & _).
    + intros status item Hstatus Hitem.
      repeat (apply elem_of_cons in Hstatus as [Hstatus|Hstatus];
              [rewrite Hstatus in Hitem;
               repeat (apply elem_of_cons in Hitem as [Hitem|Hitem];
                       [rewrite Hitem; vm_compute; eauto |]);
               by apply elem_of_nil in Hitem |]).
      by apply elem_of_nil in Hstatus.
    + repeat constructor.
    + exists ticks. split; [exact Hticks | exact Hlen].
Defined.

Lemma isConnected_spec_witness :
  ∃ b, isConnected Examples.chain
         {| vertex := Examples.A; next := []; row := None |}
         {| vertex := Examples.B; next := []; row := None |} = Ok b ∧
       (b = true ↔
        ∃ key edges e,
          (key, edges) ∈ default [] (pipelineEdges Examples.chainDag) ∧ e ∈ edges ∧
          inputVertexId e = ToString (vertexId Examples.A) ∧
          targetVertexId e = ToString (vertexId Examples.B)).
Proof.
  apply (isConnected_spec Examples.chain Examples.chainDag). reflexivity.
Defined.

(** * Further properties *)

(** ** Connectivity as a relation on vertices *)

Lemma scanEdges_vertex (P Q P' Q' : Point) (edges : list Edge) :
  vertex P = vertex P' → vertex Q = vertex Q' →
  scanEdges P Q edges = scanEdges P' Q' edges.
Proof.
  intros HP HQ. induction edges as [|e edges IH]; simpl; [done |].
  unfold edgeMatches. by rewrite HP, HQ, IH.
Qed.

Lemma scanPipelines_vertex (P Q P' Q' : Point) (edgeMap : list (string * list Edge)) :
  vertex P = vertex P' → vertex Q = vertex Q' →
  scanPipelines P Q edgeMap = scanPipelines P' Q' edgeMap.
Proof.
  intros HP HQ. induction edgeMap as [|[key edges] edgeMap IH]; simpl; [done |].
  by rewrite (scanEdges_vertex P Q P' Q'), IH.
Qed.

Lemma isConnected_connects (job : Job) (dag : JobDag) (P Q : Point) :
  jobDag job = Some dag →
  isConnected job P Q = Ok (connects (default [] (pipelineEdges dag)) (vertex P) (vertex Q)).
Proof.
  intros Hdag. rewrite (isConnected_Ok _ _ _ _ Hdag). unfold connects.
  by rewrite (scanPipelines_vertex P Q (mkPoint (vertex P) [] None)
                (mkPoint (vertex Q) [] None)).
Qed.

Lemma connects_true (edgeMap : list (string * list Edge)) (u v : Vertex) :
  connects edgeMap u v = true ↔ hasEdge edgeMap u v.
Proof.
  unfold connects, hasEdge.
  destruct (scanPipelines _ _ edgeMap) as [ij|] eqn:Hscan.
  - split; [intros _ | done].
    assert (is_Some (scanPipelines (mkPoint u [] None) (mkPoint v [] None) edgeMap))
      as Hs by (by rewrite Hscan).
    apply scanPipelines_is_Some in Hs as (key & edges & e & Hin & He & Hm).
    apply edgeMatches_true in Hm as [Hi Ht]. exists key, edges. split; [done |].
    destruct e as [ei et]. simpl in *. by subst.
  - split; [done |]. intros (key & edges & Hin & He).
    rewrite scanPipelines_None in Hscan.
    specialize (Hscan key edges (edgeOf u v) Hin He).
    unfold edgeMatches, edgeOf in Hscan. simpl in Hscan.
    by rewrite !bool_decide_eq_true_2 in Hscan.
Qed.

Section find_previous.
Context (job : Job) (dag : JobDag) (Hdag : jobDag job = Some dag).
Let edgeMap := default [] (pipelineEdges dag).

Lemma findInRow_find (pts : list Point) (item : Point) (r : list nat) :
  (∀ p, p ∈ r → is_Some (pts !! p)) →
  findInRow job pts item r
  = Ok (snd <$> list_find (λ p, connAddr edgeMap pts (vertex item) p = true) r).
Proof.
  induction r as [|p r IH]; intros Hr; [done |].
  destruct (Hr p) as [point Hp]; [apply list_elem_of_here |].
  simpl. unfold deref. rewrite Hp. simpl.
  rewrite (isConnected_connects _ _ _ _ Hdag). simpl. fold edgeMap.
  assert (connAddr edgeMap pts (vertex item) p
          = connects edgeMap (vertex point) (vertex item)) as Hca
    by (unfold connAddr; by rewrite Hp).
  destruct (connects edgeMap (vertex point) (vertex item)) eqn:Hc.
  - by rewrite decide_True.
  - rewrite decide_False by (by rewrite Hca). rewrite IH.
    + by destruct (list_find _ r) as [[??]|].
    + intros q Hq. apply Hr. by apply list_elem_of_further.
Qed.

Lemma findInRows_find (pts : list Point) (item : Point) (rows : list (list nat)) :
  (∀ cells p, cells ∈ rows → p ∈ cells → is_Some (pts !! p)) →
  findInRows job pts item rows
  = Ok (snd <$> list_find (λ p, connAddr edgeMap pts (vertex item) p = true)
                          (concat rows)).
Proof.
  induction rows as [|r rows IH]; intros Hrows; [done |].
  simpl. rewrite findInRow_find.
  2:{ intros p. apply Hrows. apply list_elem_of_here. }
  simpl.
  destruct (list_find _ r) as [[j p]|] eqn:Hfind; simpl.
  - by rewrite (list_find_app_l _ _ _ j p).
  - rewrite IH.
    2:{ intros cells p Hc. apply Hrows. by apply list_elem_of_further. }
    rewrite list_find_app_r by done.
    by destruct (list_find _ (concat rows)) as [[??]|].
Qed.

End find_previous.

(** ** What the row layout keeps true while it places the vertices *)

Lemma lookup_alter_next (f : Point → Point) (pts : list Point) (i j : nat) :
  (∀ point, next (f point) = next point) →
  next <$> alter f i pts !! j = next <$> pts !! j.
Proof.
  intros Hf. rewrite list_lookup_alter. case_decide as Heq; [subst j|done].
  rewrite <- option_fmap_compose. apply option_fmap_ext. intros point. apply Hf.
Qed.

Lemma lookup_alter_set_row (r : option nat) (pts : list Point) (i j : nat) :
  row <$> alter (set_row r) i pts !! j
  = if decide (i = j) then (λ _, r) <$> pts !! j else row <$> pts !! j.
Proof.
  rewrite list_lookup_alter. case_decide as Heq; [subst j|done].
  by rewrite <- option_fmap_compose.
Qed.

Lemma lookup_alter_set_next (nx : list nat) (pts : list Point) (i j : nat) :
  next <$> alter (set_next nx) i pts !! j
  = if decide (i = j) then (λ _, nx) <$> pts !! j else next <$> pts !! j.
Proof.
  rewrite list_lookup_alter. case_decide as Heq; [subst j|done].
  by rewrite <- option_fmap_compose.
Qed.

Lemma lookup_alter_push_next (q : nat) (pts : list Point) (i j : nat) :
  next <$> alter (push_next q) i pts !! j
  = if decide (i = j) then (λ nx, nx ++ [q]) <$> (next <$> pts !! j)
    else next <$> pts !! j.
Proof.
  rewrite list_lookup_alter. case_decide as Heq; [subst j|done].
  by rewrite <- !option_fmap_compose.
Qed.

Lemma elem_of_matrix_concat (rows : list (list nat)) (cells : list nat) (p : nat) :
  cells ∈ rows → p ∈ cells → p ∈ concat rows.
Proof. intros Hc Hp. apply elem_of_concat. by exists cells. Qed.

Section placed.
Context (edgeMap : list (string * list Edge)) (vs : list Vertex).

Lemma Placed_lt (k : nat) (st : Store) (cells : list nat) (p : nat) :
  Placed edgeMap vs k st → cells ∈ matrix st → p ∈ cells → (p < k)%nat.
Proof.
  intros HP Hc Hp.
  assert (p ∈ seq 0 k) as Hin.
  { rewrite <- (placed_once _ _ _ _ HP). by eapply elem_of_matrix_concat. }
  apply elem_of_seq in Hin. lia.
Qed.

Lemma Placed_length (k : nat) (st : Store) :
  Placed edgeMap vs k st → length (points st) = length vs.
Proof. intros HP. rewrite <- (placed_vertex _ _ _ _ HP). by rewrite length_fmap. Qed.

Lemma Placed_heads_lt (k : nat) (st : Store) (h : nat) :
  Placed edgeMap vs k st → h ∈ omap head (matrix st) → (h < k)%nat.
Proof.
  intros HP (cells & Hc & Hh)%list_elem_of_omap.
  apply (Placed_lt k st cells h HP Hc).
  destruct cells as [|c cells]; [done |]. injection Hh as ->. apply list_elem_of_here.
Qed.

Lemma Placed_newRow (k : nat) (st : Store) :
  Placed edgeMap vs k st → (k < length vs)%nat →
  Placed edgeMap vs (S k) (newRow k st).
Proof.
  intros HP Hk.
  assert (is_Some (points st !! k)) as [point Hpoint].
  { apply lookup_lt_is_Some. by rewrite (Placed_length k st HP). }
  unfold newRow. split; cbn [points matrix].
  - rewrite lookup_alter_vertex by done. apply (placed_vertex _ _ _ _ HP).
  - rewrite concat_app, seq_S. simpl.
    by rewrite (placed_once _ _ _ _ HP).
  - intros cells [Hc | ->%list_elem_of_singleton]%elem_of_app; [|done].
    by apply (placed_nonempty _ _ _ _ HP).
  - intros r cells p Hr Hp. rewrite lookup_alter_set_row.
    destruct (decide (r < length (matrix st))%nat) as [Hlt|Hge].
    + rewrite lookup_app_l in Hr by done.
      assert (p < k)%nat by (eapply Placed_lt; [done | by eapply list_elem_of_lookup_2 | done]).
      rewrite decide_False by lia. by apply (placed_row _ _ _ _ HP r cells).
    + rewrite lookup_app_r in Hr by lia.
      destruct (r - length (matrix st))%nat as [|?] eqn:Hr'; [|done].
      injection Hr as <-. apply list_elem_of_singleton in Hp as ->.
      rewrite decide_True by done. rewrite Hpoint. simpl. do 2 f_equal. lia.
  - intros cells p [Hc | ->%list_elem_of_singleton]%elem_of_app Hlast;
      rewrite lookup_alter_next by done.
    + by apply (placed_last _ _ _ _ HP cells).
    + injection Hlast as <-. apply (placed_fresh _ _ _ _ HP); lia.
  - intros cells j p q [Hc | ->%list_elem_of_singleton]%elem_of_app Hp Hq;
      rewrite lookup_alter_next by done.
    + by apply (placed_succ _ _ _ _ HP cells j).
    + by destruct j.
  - intros p nx q. rewrite lookup_alter_next by done.
    apply (placed_conn _ _ _ _ HP).
  - intros p Hp Hlt. rewrite lookup_alter_next by done.
    apply (placed_fresh _ _ _ _ HP); lia.
  - intros cells [Hc | ->%list_elem_of_singleton]%elem_of_app.
    + by apply (placed_sorted _ _ _ _ HP).
    + repeat constructor.
  - rewrite omap_app. simpl. apply StronglySorted_app_2.
    + intros h x Hh ->%list_elem_of_singleton. by apply (Placed_heads_lt k st).
    + apply (placed_heads _ _ _ _ HP).
    + repeat constructor.
Qed.

Lemma Placed_push (k : nat) (st : Store) (p : nat) (nx : list nat) :
  Placed edgeMap vs k st → (p < k)%nat →
  next <$> points st !! p = Some nx → nx ≠ [] →
  (∃ u v, vs !! p = Some u ∧ vs !! k = Some v ∧ connects edgeMap u v = true) →
  Placed edgeMap vs k {| points := alter (push_next k) p (points st);
                         matrix := matrix st |}.
Proof.
  intros HP Hp Hnx Hne Hconn. split; cbn [points matrix].
  - rewrite lookup_alter_vertex by done. apply (placed_vertex _ _ _ _ HP).
  - apply (placed_once _ _ _ _ HP).
  - apply (placed_nonempty _ _ _ _ HP).
  - intros r cells p' Hr Hp'. rewrite lookup_alter_row by done.
    by apply (placed_row _ _ _ _ HP r cells).
  - intros cells p' Hc Hlast. rewrite lookup_alter_push_next.
    pose proof (placed_last _ _ _ _ HP cells p' Hc Hlast) as Hold.
    case_decide as Heq; [|done]. subst p'. congruence.
  - intros cells j p1 q Hc Hp1 Hq. rewrite lookup_alter_push_next.
    destruct (placed_succ _ _ _ _ HP cells j p1 q Hc Hp1 Hq) as [tl Htl].
    case_decide as Heq; [|by exists tl].
    rewrite Htl. simpl. by exists (tl ++ [k]).
  - intros p1 nx1 q. rewrite lookup_alter_push_next.
    case_decide as Heq; [subst p1|apply (placed_conn _ _ _ _ HP)].
    rewrite Hnx. simpl. intros [= <-] [Hq | ->%list_elem_of_singleton]%elem_of_app.
    + by apply (placed_conn _ _ _ _ HP p nx).
    + done.
  - intros p1 Hp1 Hlt. rewrite lookup_alter_push_next, decide_False by lia.
    by apply (placed_fresh _ _ _ _ HP).
  - apply (placed_sorted _ _ _ _ HP).
  - apply (placed_heads _ _ _ _ HP).
Qed.

Lemma concat_alter_snoc (rows : list (list nat)) (r : nat) (cells : list nat) (x : nat) :
  rows !! r = Some cells →
  concat (alter (λ c, c ++ [x]) r rows) ≡ₚ concat rows ++ [x].
Proof.
  revert r. induction rows as [|c rows IH]; intros [|r] Hr; simplify_eq/=.
  - rewrite <- !app_assoc. f_equiv. apply Permutation_app_comm.
  - rewrite (IH r Hr). by rewrite app_assoc.
Qed.

Lemma omap_head_alter_snoc (rows : list (list nat)) (r : nat) (x : nat) :
  (∀ cells, cells ∈ rows → cells ≠ []) →
  omap head (alter (λ c, c ++ [x]) r rows) = omap head rows.
Proof.
  revert r. induction rows as [|c rows IH]; intros [|r] Hne; [done.. | |].
  - destruct c as [|h c]; [|done]. by destruct (Hne []); [apply list_elem_of_here |].
  - assert (omap head (alter (λ c, c ++ [x]) r rows) = omap head rows) as Hrec.
    { apply IH. intros cells Hc. apply Hne. by apply list_elem_of_further. }
    destruct c as [|h c]; simpl in *; [done | by f_equal].
Qed.

Lemma Placed_is_last (k : nat) (st : Store) (cells : list nat) (p : nat) :
  Placed edgeMap vs k st → cells ∈ matrix st → p ∈ cells →
  next <$> points st !! p = Some [] → last cells = Some p.
Proof.
  intros HP Hc (j & Hj)%list_elem_of_lookup Hnext.
  destruct (cells !! S j) as [q|] eqn:Hq.
  - destruct (placed_succ _ _ _ _ HP cells j p q Hc Hj Hq) as [tl Htl]. congruence.
  - rewrite last_lookup. apply lookup_ge_None in Hq.
    apply lookup_lt_Some in Hj as Hlt.
    replace (pred (length cells)) with j by lia. done.
Qed.

Lemma Placed_append (k : nat) (st : Store) (p r : nat) (cells : list nat) :
  Placed edgeMap vs k st → (k < length vs)%nat →
  matrix st !! r = Some cells → p ∈ cells →
  next <$> points st !! p = Some [] →
  (∃ u v, vs !! p = Some u ∧ vs !! k = Some v ∧ connects edgeMap u v = true) →
  Placed edgeMap vs (S k)
    {| points := alter (set_next [k]) p (alter (set_row (Some r)) k (points st));
       matrix := alter (λ c, c ++ [k]) r (matrix st) |}.
Proof.
  intros HP Hk Hr Hp Hnext Hconn.
  assert (cells ∈ matrix st) as Hc by (by eapply list_elem_of_lookup_2).
  assert (p < k)%nat as Hpk by (by eapply Placed_lt).
  assert (last cells = Some p) as Hlast by (by eapply Placed_is_last).
  assert (is_Some (points st !! k)) as [pointk Hpointk].
  { apply lookup_lt_is_Some. by rewrite (Placed_length k st HP). }
  assert (is_Some (points st !! p)) as [pointp Hpointp].
  { destruct (points st !! p); [by eexists | done]. }
  assert (∀ p', next <$> alter (set_next [k]) p
                           (alter (set_row (Some r)) k (points st)) !! p'
                = if decide (p = p') then Some [k] else next <$> points st !! p')
    as Hnext'.
  { intros p'. rewrite lookup_alter_set_next. case_decide as Heq.
    - subst p'. rewrite list_lookup_alter_ne by lia. by rewrite Hpointp.
    - by rewrite lookup_alter_next. }
  assert (∀ p', row <$> alter (set_next [k]) p
                          (alter (set_row (Some r)) k (points st)) !! p'
                = if decide (k = p') then Some (Some r) else row <$> points st !! p')
    as Hrow'.
  { intros p'. rewrite lookup_alter_row by done. rewrite lookup_alter_set_row.
    case_decide as Heq; [subst p'; by rewrite Hpointk | done]. }
  assert (∀ r' cells', alter (λ c, c ++ [k]) r (matrix st) !! r' = Some cells' →
            (r' = r ∧ cells' = cells ++ [k]) ∨ (r' ≠ r ∧ matrix st !! r' = Some cells'))
    as Hrows.
  { intros r' cells'. rewrite list_lookup_alter. case_decide as Heq.
    - subst r'. rewrite Hr. simpl. intros [= <-]. by left.
    - intros H. by right. }
  assert (∀ r' cells' p', r' ≠ r → matrix st !! r' = Some cells' → p' ∈ cells' → p' ≠ p)
    as Hother.
  { intros r' cells' p' Hne Hr' Hp' ->.
    pose proof (placed_row _ _ _ _ HP r cells p Hr Hp) as H1.
    pose proof (placed_row _ _ _ _ HP r' cells' p Hr' Hp') as H2. congruence. }
  split; cbn [points matrix].
  - rewrite !lookup_alter_vertex by done. apply (placed_vertex _ _ _ _ HP).
  - rewrite (concat_alter_snoc _ r cells) by done. rewrite seq_S. simpl.
    by rewrite (placed_once _ _ _ _ HP).
  - intros cells' (r' & Hr')%list_elem_of_lookup.
    destruct (Hrows r' cells' Hr') as [[-> ->] | [Hne Hold]].
    + by destruct cells.
    + apply (placed_nonempty _ _ _ _ HP). by eapply list_elem_of_lookup_2.
  - intros r' cells' p' Hr' Hp'. rewrite Hrow'.
    destruct (Hrows r' cells' Hr') as [[-> ->] | [Hne Hold]].
    + apply elem_of_app in Hp' as [Hp' | ->%list_elem_of_singleton].
      * assert (p' < k)%nat by (by eapply Placed_lt).
        rewrite decide_False by lia. by apply (placed_row _ _ _ _ HP r cells).
      * by rewrite decide_True.
    + assert (p' < k)%nat.
      { eapply Placed_lt; [done | by eapply list_elem_of_lookup_2 | done]. }
      rewrite decide_False by lia. by apply (placed_row _ _ _ _ HP r' cells').
  - intros cells' p' (r' & Hr')%list_elem_of_lookup Hlast'. rewrite Hnext'.
    destruct (Hrows r' cells' Hr') as [[-> ->] | [Hne Hold]].
    + rewrite last_snoc in Hlast'. injection Hlast' as <-.
      rewrite decide_False by lia. apply (placed_fresh _ _ _ _ HP); lia.
    + rewrite decide_False.
      * apply (placed_last _ _ _ _ HP cells'); [by eapply list_elem_of_lookup_2 | done].
      * intros <-. eapply (Hother r' cells' p); [done.. | | done].
        by apply last_Some_elem_of.
  - intros cells' j p1 q (r' & Hr')%list_elem_of_lookup Hp1 Hq. rewrite Hnext'.
    destruct (Hrows r' cells' Hr') as [[-> ->] | [Hne Hold]].
    + destruct (decide (S j < length cells)%nat) as [Hlt|Hge].
      * rewrite lookup_app_l in Hp1 by lia. rewrite lookup_app_l in Hq by lia.
        destruct (placed_succ _ _ _ _ HP cells j p1 q Hc Hp1 Hq) as [tl Htl].
        rewrite decide_False by congruence. by exists tl.
      * assert (S j = length cells) as Hj.
        { apply lookup_lt_Some in Hq. rewrite length_app in Hq. simpl in Hq. lia. }
        rewrite lookup_app_l in Hp1 by lia.
        rewrite lookup_app_r in Hq by lia. rewrite Hj, Nat.sub_diag in Hq.
        injection Hq as <-.
        rewrite last_lookup in Hlast. replace (pred (length cells)) with j in Hlast by lia.
        rewrite Hlast in Hp1. injection Hp1 as <-.
        rewrite decide_True by done. by exists [].
    + assert (cells' ∈ matrix st) as Hc' by (by eapply list_elem_of_lookup_2).
      destruct (placed_succ _ _ _ _ HP cells' j p1 q Hc' Hp1 Hq) as [tl Htl].
      rewrite decide_False by congruence. by exists tl.
  - intros p1 nx1 q. rewrite Hnext'.
    case_decide as Heq; [subst p1|apply (placed_conn _ _ _ _ HP)].
    intros [= <-] ->%list_elem_of_singleton. done.
  - intros p1 Hp1 Hlt. rewrite Hnext', decide_False by lia.
    apply (placed_fresh _ _ _ _ HP); lia.
  - intros cells' (r' & Hr')%list_elem_of_lookup.
    destruct (Hrows r' cells' Hr') as [[-> ->] | [Hne Hold]].
    + apply StronglySorted_app_2.
      * intros x1 x2 Hx1 ->%list_elem_of_singleton. by eapply Placed_lt.
      * by apply (placed_sorted _ _ _ _ HP).
      * repeat constructor.
    + apply (placed_sorted _ _ _ _ HP). by eapply list_elem_of_lookup_2.
  - rewrite omap_head_alter_snoc; [apply (placed_heads _ _ _ _ HP) |].
    apply (placed_nonempty _ _ _ _ HP).
Qed.

End placed.

(** ** The layout as a function of the rows alone *)

Section refinement.
Context (job : Job) (dag : JobDag) (Hdag : jobDag job = Some dag).
Let edgeMap := default [] (pipelineEdges dag).

Lemma place_Placed (vs : list Vertex) (k : nat) (st : Store) :
  Placed edgeMap vs k st → (k < length vs)%nat →
  ∃ st', place job st k = Ok st' ∧ Placed edgeMap vs (S k) st' ∧
         matrix st' = rowsStep (connV edgeMap vs) (matrix st) k.
Proof.
  intros HP Hk.
  assert (is_Some (points st !! k)) as [point Hpoint].
  { apply lookup_lt_is_Some. by rewrite (Placed_length _ _ k st HP). }
  assert (∀ p, vs !! p = vertex <$> points st !! p) as Hvs.
  { intros p. by rewrite <- (placed_vertex _ _ _ _ HP), list_lookup_fmap. }
  assert (∀ cells p, cells ∈ matrix st → p ∈ cells → is_Some (points st !! p)) as Hvalid.
  { intros cells p Hc Hp. apply lookup_lt_is_Some.
    rewrite (Placed_length _ _ k st HP).
    pose proof (Placed_lt _ _ k st cells p HP Hc Hp). lia. }
  unfold place, deref. rewrite Hpoint. simpl. unfold findPrevious.
  rewrite (findInRows_find job dag Hdag) by done. simpl. fold edgeMap.
  rewrite (list_find_ext _ (λ p, connV edgeMap vs p k = true)).
  2:{ intros p. unfold connAddr, connV. rewrite !Hvs, Hpoint. simpl.
      by destruct (points st !! p). }
  unfold rowsStep.
  destruct (list_find (λ p, connV edgeMap vs p k = true) (concat (matrix st)))
    as [[j p]|] eqn:Hfind; simpl.
  - apply list_find_Some in Hfind as (Hj & Hconn & _).
    apply list_elem_of_lookup_2, elem_of_concat in Hj as (cells & Hc & Hp).
    pose proof Hc as (r & Hr)%list_elem_of_lookup.
    pose proof (Placed_lt _ _ k st cells p HP Hc Hp) as Hpk.
    pose proof (placed_row _ _ _ _ HP r cells p Hr Hp) as Hrow.
    apply fmap_Some in Hrow as (prev & Hprev & Hrow). rewrite Hprev. simpl.
    assert (∃ u v, vs !! p = Some u ∧ vs !! k = Some v ∧ connects edgeMap u v = true)
      as Hedge.
    { unfold connV in Hconn. destruct (vs !! p) as [u|]; [|done].
      destruct (vs !! k) as [v|]; [|done]. by exists u, v. }
    case_bool_decide as Hnext.
    + eexists. split; [done |]. split.
      * apply Placed_newRow; [|done].
        apply (Placed_push _ _ k st p (next prev)); [done.. | by rewrite Hprev | done | done].
      * rewrite (proj2 (list_find_None _ _)); [done |].
        apply Forall_forall. intros cells' Hc' Hlast.
        pose proof (placed_last _ _ _ _ HP cells' p Hc' Hlast) as Hnil.
        rewrite Hprev in Hnil. simpl in Hnil. congruence.
    + rewrite list_lookup_alter_eq, list_lookup_alter_ne, Hprev by lia. simpl.
      rewrite <- Hrow.
      rewrite bool_decide_eq_true_2 by (by eapply lookup_lt_Some).
      eexists. split; [done |]. split.
      * apply (Placed_append _ _ k st p r cells);
          [done.. | rewrite Hprev; simpl; by rewrite Hnext | done].
      * cbn [matrix].
        rewrite (proj2 (list_find_Some _ (matrix st) r cells)); [done |].
        split; [done |]. split.
        -- apply (Placed_is_last edgeMap vs k st); [done.. |].
           rewrite Hprev. simpl. by rewrite Hnext.
        -- intros r' cells' Hr' Hlt Hlast.
           pose proof (placed_row _ _ _ _ HP r' cells' p Hr'
                         (last_Some_elem_of _ _ Hlast)) as Hrow'.
           rewrite Hprev in Hrow'. simpl in Hrow'. rewrite <- Hrow in Hrow'.
           injection Hrow' as ->. lia.
  - eexists. split; [done |]. split; [by apply Placed_newRow | done].
Qed.

Lemma forEach_Placed (vs : list Vertex) (m k : nat) (st : Store) :
  Placed edgeMap vs k st → (k + m ≤ length vs)%nat →
  ∃ st', forEach job st (seq k m) = Ok st' ∧ Placed edgeMap vs (k + m) st' ∧
         matrix st' = foldl (rowsStep (connV edgeMap vs)) (matrix st) (seq k m).
Proof.
  revert k st. induction m as [|m IH]; intros k st HP Hle; simpl.
  - exists st. by rewrite Nat.add_0_r.
  - destruct (place_Placed vs k st HP) as (st1 & -> & HP1 & Hm1); [lia |].
    simpl. destruct (IH (S k) st1 HP1) as (st' & -> & HP' & Hm'); [lia |].
    exists st'. split; [done |]. split.
    + by replace (k + S m)%nat with (S k + m)%nat by lia.
    + by rewrite Hm', Hm1.
Qed.

Lemma buildMatrix_Placed :
  let vs := default [] (vertexInfoMap dag) in
  ∃ st, buildMatrix job = Ok st ∧ Placed edgeMap vs (length vs) st ∧
        matrix st = rowsLayout (connV edgeMap vs) (length vs).
Proof.
  intros vs. unfold buildMatrix.
  assert (vertex <$> initialPoints job = vs) as Hvs.
  { unfold initialPoints, vs. rewrite Hdag.
    destruct (vertexInfoMap dag) as [l|]; simpl; [|done].
    rewrite <- list_fmap_compose. apply list_fmap_id. }
  assert (length (initialPoints job) = length vs) as Hlen
    by (by rewrite <- Hvs, length_fmap).
  rewrite Hlen.
  destruct (forEach_Placed vs (length vs) 0 {| points := initialPoints job; matrix := [] |})
    as (st & Hst & HP & Hm); [| done | by exists st].
  split; cbn [points matrix]; try done.
  - intros cells H. by apply elem_of_nil in H.
  - intros cells p H. by apply elem_of_nil in H.
  - intros cells j p q H. by apply elem_of_nil in H.
  - intros p nx q Hnx Hq. exfalso. revert Hnx Hq.
    unfold initialPoints. rewrite Hdag.
    destruct (vertexInfoMap dag) as [l|]; simpl; [|done].
    rewrite list_lookup_fmap. destruct (l !! p); simpl; [|done].
    intros [= <-] H. by apply elem_of_nil in H.
  - intros p _ Hp. unfold initialPoints, vs in *. rewrite Hdag.
    destruct (vertexInfoMap dag) as [l|]; simpl in *; [|lia].
    rewrite list_lookup_fmap. apply lookup_lt_is_Some in Hp as [v ->]. done.
  - intros cells H. by apply elem_of_nil in H.
  - constructor.
Qed.

End refinement.

Lemma omap_lookup_Forall2 {A B} (f : A → option B) (l : list A) (l' : list B) :
  Forall2 (λ a b, f a = Some b) l l' → omap f l = l'.
Proof.
  induction 1 as [|a b l l' Hab _ IH]; [done |].
  change (omap f (a :: l)) with (match f a with Some y => y :: omap f l | None => omap f l end).
  by rewrite Hab, IH.
Qed.

Lemma omap_lookup_seq {A} (l : list A) : omap (λ p, l !! p) (seq 0 (length l)) = l.
Proof.
  apply omap_lookup_Forall2. apply Forall2_same_length_lookup. split.
  - by rewrite length_seq.
  - intros i p x Hp Hx. apply lookup_seq in Hp as [-> _]. done.
Qed.

Lemma layout_store (job : Job) (dag : JobDag) :
  jobDag job = Some dag →
  let edgeMap := default [] (pipelineEdges dag) in
  let vs := default [] (vertexInfoMap dag) in
  ∃ st grid,
    buildMatrix job = Ok st ∧ layout job = Ok grid ∧
    Placed edgeMap vs (length vs) st ∧
    matrix st = rowsLayout (connV edgeMap vs) (length vs) ∧
    Forall2 (Forall2 (λ p point, points st !! p = Some point)) (matrix st) grid ∧
    vertices grid = verticesAt vs (matrix st).
Proof.
  intros Hdag edgeMap vs.
  destruct (buildMatrix_Placed job dag Hdag) as (st & Hst & HP & Hm).
  destruct (derefRows_Ok (points st) (matrix st)) as (grid & Hgrid & Hall).
  { intros cells p Hc Hp. apply lookup_lt_is_Some.
    rewrite (Placed_length _ _ _ st HP).
    by apply (Placed_lt _ _ _ st cells p HP). }
  exists st, grid. split; [done |]. split.
  { unfold layout. by rewrite Hst. }
  split; [done |]. split; [done |]. split; [done |].
  unfold vertices, verticesAt. clear Hgrid Hm.
  pose proof (placed_vertex _ _ _ _ HP) as Hvs. fold vs in Hvs.
  induction Hall as [|cells cellsP M grid Hrow _ IH]; [done |].
  simpl. f_equal; [|done]. symmetry. apply omap_lookup_Forall2.
  apply Forall2_fmap_r. eapply Forall2_impl; [exact Hrow |].
  intros p point Hp. simpl. by rewrite <- Hvs, list_lookup_fmap, Hp.
Qed.

(** X1.  Every vertex of the job is in the grid exactly once, and no row of the
    grid is empty. *)
Theorem layout_places_each_vertex_once (job : Job) (dag : JobDag) :
  jobDag job = Some dag →
  ∃ grid, layout job = Ok grid ∧
          concat (vertices grid) ≡ₚ default [] (vertexInfoMap dag) ∧
          ∀ cells, cells ∈ grid → cells ≠ [].
Proof.
  intros Hdag.
  destruct (layout_store job dag Hdag) as (st & grid & _ & Hgrid & HP & _ & Hall & Hv).
  exists grid. split; [done |]. split.
  - rewrite Hv. unfold verticesAt.
    assert (∀ rows : list (list nat),
              concat (map (omap (λ p, default [] (vertexInfoMap dag) !! p)) rows)
              = omap (λ p, default [] (vertexInfoMap dag) !! p) (concat rows)) as Hconcat.
    { induction rows as [|cells rows IH]; [done |]. simpl. by rewrite omap_app, IH. }
    rewrite Hconcat, (placed_once _ _ _ _ HP). by rewrite omap_lookup_seq.
  - intros cellsP (r & Hr)%list_elem_of_lookup ->.
    destruct (Forall2_lookup_r _ _ _ _ _ Hall Hr) as (cells & Hcells & Hrow).
    apply Forall2_nil_inv_r in Hrow as ->.
    by apply (placed_nonempty _ _ _ _ HP []); [eapply list_elem_of_lookup_2 |].
Qed.

Lemma grid_adjacent (edgeMap : list (string * list Edge)) (vs : list Vertex) (k : nat)
    (st : Store) (grid : list (list Point)) (cells : list Point) (j : nat) (P Q : Point) :
  Placed edgeMap vs k st →
  Forall2 (Forall2 (λ p point, points st !! p = Some point)) (matrix st) grid →
  cells ∈ grid → cells !! j = Some P → cells !! S j = Some Q →
  hasEdge edgeMap (vertex P) (vertex Q).
Proof.
  intros HP Hall (r & Hr)%list_elem_of_lookup HjP HjQ.
  destruct (Forall2_lookup_r _ _ _ _ _ Hall Hr) as (addrs & Haddrs & Hrow).
  destruct (Forall2_lookup_r _ _ _ _ _ Hrow HjP) as (p & Hp & HpP).
  destruct (Forall2_lookup_r _ _ _ _ _ Hrow HjQ) as (q & Hq & HqQ).
  destruct (placed_succ _ _ _ _ HP addrs j p q) as [tl Htl];
    [by eapply list_elem_of_lookup_2 | done.. |].
  destruct (placed_conn _ _ _ _ HP p (q :: tl) q Htl) as (u & v & Hu & Hv & Hconn);
    [apply list_elem_of_here |].
  assert (∀ a point, points st !! a = Some point → vs !! a = Some (vertex point)) as Hvs.
  { intros a point Ha. rewrite <- (placed_vertex _ _ _ _ HP), list_lookup_fmap.
    by rewrite Ha. }
  rewrite (Hvs p P HpP) in Hu. rewrite (Hvs q Q HqQ) in Hv.
  injection Hu as <-. injection Hv as <-. by apply connects_true.
Qed.

(** X2.  Two cells next to each other in a row of the grid are joined by an edge
    of the edge map, from the left one to the right one. *)
Theorem layout_rows_are_chains (job : Job) (dag : JobDag) :
  jobDag job = Some dag →
  ∃ grid, layout job = Ok grid ∧
    ∀ cells j P Q,
      cells ∈ grid → cells !! j = Some P → cells !! S j = Some Q →
      hasEdge (default [] (pipelineEdges dag)) (vertex P) (vertex Q).
Proof.
  intros Hdag.
  destruct (layout_store job dag Hdag) as (st & grid & _ & Hgrid & HP & _ & Hall & _).
  exists grid. split; [done |].
  intros cells j P Q. by apply (grid_adjacent _ _ _ st grid cells j P Q HP Hall).
Qed.

(** X3.  The bookkeeping fields agree with the grid: the [row] of a point is the
    index of the row that holds it, and its [next] is empty exactly when it
    is the last cell of that row. *)
Theorem layout_fields_agree (job : Job) (dag : JobDag) :
  jobDag job = Some dag →
  ∃ grid, layout job = Ok grid ∧
    ∀ r cells j P,
      grid !! r = Some cells → cells !! j = Some P →
      row P = Some r ∧ (next P = [] ↔ cells !! S j = None).
Proof.
  intros Hdag.
  destruct (layout_store job dag Hdag) as (st & grid & _ & Hgrid & HP & _ & Hall & _).
  exists grid. split; [done |].
  intros r cellsP j P Hr HjP.
  destruct (Forall2_lookup_r _ _ _ _ _ Hall Hr) as (cells & Hcells & Hrow).
  destruct (Forall2_lookup_r _ _ _ _ _ Hrow HjP) as (p & Hp & HpP).
  assert (cells ∈ matrix st) as Hc by (by eapply list_elem_of_lookup_2).
  split.
  - pose proof (placed_row _ _ _ _ HP r cells p Hcells
                  (list_elem_of_lookup_2 _ _ _ Hp)) as Hrw.
    rewrite HpP in Hrw. by injection Hrw.
  - assert (cellsP !! S j = None ↔ cells !! S j = None) as ->.
    { rewrite !lookup_ge_None. by rewrite (Forall2_length _ _ _ Hrow). }
    split.
    + intros Hnext. destruct (cells !! S j) as [q|] eqn:Hq; [|done].
      destruct (placed_succ _ _ _ _ HP cells j p q Hc Hp Hq) as [tl Htl].
      rewrite HpP in Htl. simpl in Htl. congruence.
    + intros Hq. assert (last cells = Some p) as Hlast.
      { rewrite last_lookup. apply lookup_ge_None in Hq.
        apply lookup_lt_Some in Hp as Hlt.
        by replace (pred (length cells)) with j by lia. }
      pose proof (placed_last _ _ _ _ HP cells p Hc Hlast) as Hnil.
      rewrite HpP in Hnil. by injection Hnil.
Qed.

(** X4.  Read left to right, a row lists its vertices in input order, and the rows
    follow one another in the input order of their first vertices. *)
Theorem layout_keeps_input_order (job : Job) (dag : JobDag) :
  jobDag job = Some dag →
  ∃ st, buildMatrix job = Ok st ∧
        (∀ cells, cells ∈ matrix st → StronglySorted lt cells) ∧
        StronglySorted lt (omap head (matrix st)).
Proof.
  intros Hdag.
  destruct (layout_store job dag Hdag) as (st & grid & Hst & _ & HP & _).
  exists st. split; [done |]. split.
  - apply (placed_sorted _ _ _ _ HP).
  - apply (placed_heads _ _ _ _ HP).
Qed.

(** X5.  The grid is the one the rows-only layout builds: the [next] and [row]
    fields decide nothing that the rows do not. *)
Theorem layout_by_rows (job : Job) (dag : JobDag) :
  jobDag job = Some dag →
  let edgeMap := default [] (pipelineEdges dag) in
  let vs := default [] (vertexInfoMap dag) in
  ∃ grid, layout job = Ok grid ∧
          vertices grid = verticesAt vs (rowsLayout (connV edgeMap vs) (length vs)).
Proof.
  intros Hdag edgeMap vs.
  destruct (layout_store job dag Hdag) as (st & grid & _ & Hgrid & _ & Hm & _ & Hv).
  exists grid. split; [done |]. by rewrite Hv, Hm.
Qed.

(** ** The rows-only layout *)

Lemma list_find_ext_elem {A} (P Q : A → Prop)
    `{!∀ x, Decision (P x), !∀ x, Decision (Q x)} (l : list A) :
  (∀ x, x ∈ l → P x ↔ Q x) → list_find P l = list_find Q l.
Proof.
  induction l as [|x l IH]; intros Hext; simpl; [done |].
  rewrite (decide_ext (P x) (Q x)) by (apply Hext, list_elem_of_here).
  rewrite IH; [done |]. intros y Hy. apply Hext. by apply list_elem_of_further.
Qed.

Section rows_only.
Context (conn : nat → nat → bool).

Lemma rowsStep_concat (rows : list (list nat)) (i : nat) :
  concat (rowsStep conn rows i) ≡ₚ concat rows ++ [i].
Proof.
  assert (concat (rows ++ [[i]]) ≡ₚ concat rows ++ [i]) as Hnew
    by (by rewrite concat_app).
  unfold rowsStep. destruct (list_find _ (concat rows)) as [[j p]|]; [|done].
  destruct (list_find _ rows) as [[r cells]|] eqn:Hrow; [|done].
  apply list_find_Some in Hrow as (Hr & _ & _).
  by apply (concat_alter_snoc rows r cells).
Qed.

Lemma rowsLayout_S (n : nat) :
  rowsLayout conn (S n) = rowsStep conn (rowsLayout conn n) n.
Proof. unfold rowsLayout. by rewrite seq_S, foldl_app. Qed.

Lemma rowsLayout_concat (n : nat) : concat (rowsLayout conn n) ≡ₚ seq 0 n.
Proof.
  induction n as [|n IH]; [done |].
  by rewrite rowsLayout_S, rowsStep_concat, IH, seq_S.
Qed.

Lemma rowsLayout_lt (n p : nat) : p ∈ concat (rowsLayout conn n) → (p < n)%nat.
Proof. rewrite rowsLayout_concat, elem_of_seq. lia. Qed.

End rows_only.

Lemma rowsLayout_ext (conn1 conn2 : nat → nat → bool) (n : nat) :
  (∀ p q, (p < q)%nat → (q < n)%nat → conn1 p q = conn2 p q) →
  rowsLayout conn1 n = rowsLayout conn2 n.
Proof.
  induction n as [|n IH]; intros Hext; [done |].
  rewrite !rowsLayout_S, <- IH by (intros; apply Hext; lia).
  unfold rowsStep.
  rewrite (list_find_ext_elem (λ p, conn1 p n = true) (λ p, conn2 p n = true)); [done |].
  intros p Hp%rowsLayout_lt. by rewrite Hext by lia.
Qed.

Lemma rowsLayout_singletons (conn : nat → nat → bool) (n : nat) :
  (∀ p q, (p < q)%nat → (q < n)%nat → conn p q = false) →
  rowsLayout conn n = (λ i, [i]) <$> seq 0 n.
Proof.
  induction n as [|n IH]; intros Hconn; [done |].
  rewrite rowsLayout_S, seq_S, fmap_app. simpl.
  unfold rowsStep. rewrite (proj2 (list_find_None _ _)).
  - by rewrite IH by (intros; apply Hconn; lia).
  - apply Forall_forall. intros p Hp%rowsLayout_lt.
    rewrite Hconn by lia. done.
Qed.

Lemma rowsLayout_chain (conn : nat → nat → bool) (n : nat) :
  (∀ p q, (p < q)%nat → (q < S n)%nat → conn p q = true ↔ q = S p) →
  rowsLayout conn (S n) = [seq 0 (S n)].
Proof.
  induction n as [|n IH]; intros Hconn; [done |].
  rewrite rowsLayout_S, IH by (intros; apply Hconn; lia).
  unfold rowsStep. simpl concat. rewrite app_nil_r.
  rewrite (proj2 (list_find_Some _ (seq 0 (S n)) n n)).
  - rewrite (proj2 (list_find_Some _ [seq 0 (S n)] 0%nat (seq 0 (S n)))).
    + simpl alter. by rewrite (seq_S (S n)).
    + split; [done |]. split; [|intros; lia].
      rewrite last_lookup, length_seq. change (pred (S n)) with n.
      apply lookup_seq. lia.
  - split; [apply lookup_seq; lia |]. split.
    + apply Hconn; [lia.. | done].
    + intros j y [-> Hj]%lookup_seq Hlt. simpl. rewrite Hconn by lia. lia.
Qed.

Lemma verticesAt_singletons (vs : list Vertex) :
  verticesAt vs ((λ i, [i]) <$> seq 0 (length vs)) = (λ v, [v]) <$> vs.
Proof.
  assert (∀ l l', Forall2 (λ p v, vs !! p = Some v) l l' →
                  verticesAt vs ((λ i, [i]) <$> l) = (λ v, [v]) <$> l') as Hgen.
  { induction 1 as [|p v l l' Hpv _ IH]; [done |].
    unfold verticesAt in *. simpl. rewrite Hpv. simpl. f_equal. exact IH. }
  apply Hgen. apply Forall2_same_length_lookup. split.
  - by rewrite length_seq.
  - intros i p x Hp Hx. apply lookup_seq in Hp as [-> _]. done.
Qed.

Lemma connV_true (edgeMap : list (string * list Edge)) (vs : list Vertex) (p q : nat) :
  connV edgeMap vs p q = true ↔
  ∃ u v, vs !! p = Some u ∧ vs !! q = Some v ∧ hasEdge edgeMap u v.
Proof.
  unfold connV. destruct (vs !! p) as [u|]; [destruct (vs !! q) as [v|] |].
  - rewrite connects_true. split; [by exists u, v |].
    by intros (u' & v' & [= <-] & [= <-] & H).
  - split; [done | by intros (u' & v' & _ & [=] & _)].
  - split; [done | by intros (u' & v' & [=] & _)].
Qed.

(** X6.  When no vertex has an edge from a vertex listed before it, every vertex
    gets a row of its own, in input order: so for vertices without edges, and
    so for a chain listed from its end. *)
Theorem layout_without_forward_edges (job : Job) (dag : JobDag) :
  jobDag job = Some dag →
  let edgeMap := default [] (pipelineEdges dag) in
  let vs := default [] (vertexInfoMap dag) in
  (∀ p q u v, (p < q)%nat → vs !! p = Some u → vs !! q = Some v →
              ¬ hasEdge edgeMap u v) →
  ∃ grid, layout job = Ok grid ∧ vertices grid = (λ v, [v]) <$> vs.
Proof.
  intros Hdag edgeMap vs Hnone.
  destruct (layout_store job dag Hdag) as (st & grid & _ & Hgrid & _ & Hm & _ & Hv).
  exists grid. split; [done |]. rewrite Hv, Hm. fold edgeMap vs.
  rewrite rowsLayout_singletons; [apply verticesAt_singletons |].
  intros p q Hpq Hq. apply not_true_is_false.
  intros (u & v & Hu & Hv' & Hedge)%connV_true. by apply (Hnone p q u v).
Qed.

(** X7.  A chain of any length listed from its start (each vertex has an edge
    from the vertex listed just before it and from no other vertex listed
    before it) is laid out as one row, in input order. *)
Theorem layout_chain_of_any_length (job : Job) (dag : JobDag) :
  jobDag job = Some dag →
  let edgeMap := default [] (pipelineEdges dag) in
  let vs := default [] (vertexInfoMap dag) in
  vs ≠ [] →
  (∀ p q u v, (p < q)%nat → vs !! p = Some u → vs !! q = Some v →
              hasEdge edgeMap u v ↔ q = S p) →
  ∃ grid, layout job = Ok grid ∧ vertices grid = [vs].
Proof.
  intros Hdag edgeMap vs Hne Hchain.
  destruct (layout_store job dag Hdag) as (st & grid & _ & Hgrid & _ & Hm & _ & Hv).
  exists grid. split; [done |]. rewrite Hv, Hm. fold edgeMap vs.
  destruct (length vs) as [|n] eqn:Hlen; [by destruct vs |].
  rewrite rowsLayout_chain.
  - unfold verticesAt. cbn [map]. by rewrite <- Hlen, omap_lookup_seq.
  - intros p q Hpq Hq. rewrite connV_true.
    destruct (lookup_lt_is_Some_2 vs p) as [u Hu]; [lia |].
    destruct (lookup_lt_is_Some_2 vs q) as [v Hv']; [lia |].
    rewrite <- (Hchain p q u v Hpq Hu Hv'). split; [|by exists u, v].
    intros (u' & v' & Hu' & Hv'' & Hedge). congruence.
Qed.

(** X8.  Only the edges from a vertex to a vertex listed after it count: two jobs
    with the same vertex list whose edge maps agree on those edges get the
    same grid. *)
Theorem layout_ignores_backward_edges (job1 job2 : Job) (dag1 dag2 : JobDag) :
  jobDag job1 = Some dag1 → jobDag job2 = Some dag2 →
  let vs := default [] (vertexInfoMap dag1) in
  default [] (vertexInfoMap dag2) = vs →
  (∀ p q u v, (p < q)%nat → vs !! p = Some u → vs !! q = Some v →
              hasEdge (default [] (pipelineEdges dag1)) u v
              ↔ hasEdge (default [] (pipelineEdges dag2)) u v) →
  ∃ grid1 grid2, layout job1 = Ok grid1 ∧ layout job2 = Ok grid2 ∧
                 vertices grid1 = vertices grid2.
Proof.
  intros Hdag1 Hdag2 vs Hvs Hagree.
  destruct (layout_store job1 dag1 Hdag1) as (st1 & grid1 & _ & Hgrid1 & _ & Hm1 & _ & Hv1).
  destruct (layout_store job2 dag2 Hdag2) as (st2 & grid2 & _ & Hgrid2 & _ & Hm2 & _ & Hv2).
  exists grid1, grid2. split; [done |]. split; [done |].
  rewrite Hv1, Hv2, Hm1, Hm2, Hvs. fold vs. f_equal.
  apply rowsLayout_ext. intros p q Hpq Hq. apply eq_true_iff_eq.
  rewrite !connV_true. split.
  - intros (u & v & Hu & Hv & Hedge). exists u, v.
    split; [done |]. split; [done |]. by apply (Hagree p q u v).
  - intros (u & v & Hu & Hv & Hedge). exists u, v.
    split; [done |]. split; [done |]. by apply (Hagree p q u v).
Qed.

(** Go through the pairs of positions of a list of three vertices. *)
Ltac three_positions p q Hpq Hu Hv :=
  destruct p as [|[|[|p]]]; destruct q as [|[|[|q]]]; try lia;
  simpl in Hu, Hv; simplify_eq.

Lemma layout_places_each_vertex_once_witness :
  ∃ grid, layout Examples.fanout = Ok grid ∧
          concat (vertices grid) ≡ₚ [Examples.A; Examples.B; Examples.C] ∧
          ∀ cells, cells ∈ grid → cells ≠ [].
Proof.
  apply (layout_places_each_vertex_once Examples.fanout Examples.fanoutDag).
  reflexivity.
Defined.

Lemma layout_rows_are_chains_witness :
  ∃ grid, layout Examples.fanout = Ok grid ∧
    ∀ cells j P Q,
      cells ∈ grid → cells !! j = Some P → cells !! S j = Some Q →
      hasEdge (default [] (pipelineEdges Examples.fanoutDag)) (vertex P) (vertex Q).
Proof.
  apply (layout_rows_are_chains Examples.fanout Examples.fanoutDag). reflexivity.
Defined.

Lemma layout_fields_agree_witness :
  ∃ grid, layout Examples.fanout = Ok grid ∧
    ∀ r cells j P,
      grid !! r = Some cells → cells !! j = Some P →
      row P = Some r ∧ (next P = [] ↔ cells !! S j = None).
Proof.
  apply (layout_fields_agree Examples.fanout Examples.fanoutDag). reflexivity.
Defined.

Lemma layout_keeps_input_order_witness :
  ∃ st, buildMatrix Examples.fanout = Ok st ∧
        (∀ cells, cells ∈ matrix st → StronglySorted lt cells) ∧
        StronglySorted lt (omap head (matrix st)).
Proof.
  apply (layout_keeps_input_order Examples.fanout Examples.fanoutDag). reflexivity.
Defined.

Lemma layout_by_rows_witness :
  ∃ grid, layout Examples.fanout = Ok grid ∧
          vertices grid
          = verticesAt [Examples.A; Examples.B; Examples.C]
              (rowsLayout (connV (default [] (pipelineEdges Examples.fanoutDag))
                                 [Examples.A; Examples.B; Examples.C]) 3).
Proof.
  apply (layout_by_rows Examples.fanout Examples.fanoutDag). reflexivity.
Defined.

Lemma layout_without_forward_edges_witness :
  ∃ grid, layout Orders.reversed = Ok grid ∧
          vertices grid = [[Examples.C]; [Examples.B]; [Examples.A]].
Proof.
  apply (layout_without_forward_edges Orders.reversed Orders.reversedDag).
  - reflexivity.
  - intros p q u v Hpq Hu Hv. three_positions p q Hpq Hu Hv;
      rewrite <- connects_true; vm_compute; discriminate.
Defined.

Lemma layout_chain_of_any_length_witness :
  ∃ grid, layout Examples.chain = Ok grid ∧
          vertices grid = [[Examples.A; Examples.B; Examples.C]].
Proof.
  apply (layout_chain_of_any_length Examples.chain Examples.chainDag).
  - reflexivity.
  - discriminate.
  - intros p q u v Hpq Hu Hv. three_positions p q Hpq Hu Hv;
      rewrite <- connects_true; vm_compute; split; intros; (done || lia).
Defined.

Lemma layout_ignores_backward_edges_witness :
  ∃ grid1 grid2, layout Examples.chain = Ok grid1 ∧ layout Orders.cycle = Ok grid2 ∧
                 vertices grid1 = vertices grid2.
Proof.
  apply (layout_ignores_backward_edges Examples.chain Orders.cycle
           Examples.chainDag Orders.cycleDag).
  - reflexivity.
  - reflexivity.
  - reflexivity.
  - intros p q u v Hpq Hu Hv. three_positions p q Hpq Hu Hv;
      rewrite <- !connects_true; vm_compute; done.
Defined.

(** ** The nodes of the scene *)

Lemma nodesOf_concat_imap (N : nat → list Point → nat → Point → NodeMeta.t)
    (grid : list (list Point)) :
  nodesOf (concat (imap (λ r cells, imap (λ c item, DagNode (N r cells c item)) cells)
                        grid))
  = concat (imap (λ r cells, imap (N r cells) cells) grid).
Proof.
  assert (∀ (M : nat → Point → NodeMeta.t) (cells : list Point),
            nodesOf (imap (λ c item, DagNode (M c item)) cells) = imap M cells) as Hrow.
  { intros M cells. revert M. induction cells as [|item cells IH]; intros M; [done |].
    rewrite !imap_cons, nodesOf_cons_node. f_equal. apply (IH (M ∘ S)). }
  revert N. induction grid as [|cells grid IH]; intros N; [done |].
  rewrite !imap_cons. simpl concat. rewrite nodesOf_app, Hrow. f_equal.
  apply (IH (N ∘ S)).
Qed.

Lemma nodesOf_nodeItems (status : string) (grid : list (list Point)) :
  nodesOf (nodeItems status grid)
  = concat (imap (λ r cells,
                    imap (λ c item, nodeMeta status r (length cells) c item) cells)
                 grid).
Proof.
  apply (nodesOf_concat_imap (λ r cells c item, nodeMeta status r (length cells) c item)).
Qed.

Lemma fmap_concat_imap {B} (g : NodeMeta.t → B) (h : Point → B)
    (N : nat → list Point → nat → Point → NodeMeta.t) (grid : list (list Point)) :
  (∀ r cells c item, g (N r cells c item) = h item) →
  g <$> concat (imap (λ r cells, imap (N r cells) cells) grid) = h <$> concat grid.
Proof.
  revert N. induction grid as [|cells grid IH]; intros N HN; [done |].
  rewrite !imap_cons. simpl concat. rewrite !fmap_app. f_equal.
  - rewrite fmap_imap. rewrite <- (imap_const h). apply imap_ext.
    intros c item _. apply HN.
  - apply (IH (N ∘ S)). intros. apply HN.
Qed.

Lemma lookup_concat_inv {A} (ls : list (list A)) (i : nat) (x : A) :
  concat ls !! i = Some x →
  ∃ r c l, ls !! r = Some l ∧ l !! c = Some x.
Proof.
  intros (l & (r & Hr)%list_elem_of_lookup & (c & Hc)%list_elem_of_lookup)
    %list_elem_of_lookup_2%elem_of_concat.
  by exists r, c, l.
Qed.

Lemma layout_vertices_perm (job : Job) (dag : JobDag) (grid : list (list Point)) :
  jobDag job = Some dag → layout job = Ok grid →
  vertex <$> concat grid ≡ₚ default [] (vertexInfoMap dag).
Proof.
  intros Hdag Hgrid.
  destruct (layout_store job dag Hdag) as (st & grid' & _ & Hgrid' & HP & _ & _ & Hv).
  assert (grid' = grid) as -> by congruence.
  assert (concat (vertices grid) = vertex <$> concat grid) as <-.
  { unfold vertices. clear. induction grid as [|cells grid IH]; [done |].
    simpl. by rewrite fmap_app, IH. }
  rewrite Hv. unfold verticesAt.
  assert (∀ rows : list (list nat),
            concat (map (omap (λ p, default [] (vertexInfoMap dag) !! p)) rows)
            = omap (λ p, default [] (vertexInfoMap dag) !! p) (concat rows)) as Hconcat.
  { induction rows as [|cells rows IH]; [done |]. simpl. by rewrite omap_app, IH. }
  rewrite Hconcat, (placed_once _ _ _ _ HP). by rewrite omap_lookup_seq.
Qed.

Lemma init_nodes (job : Job) (dag : JobDag) :
  jobDag job = Some dag →
  ∃ grid items,
    layout job = Ok grid ∧ init job = Ok items ∧
    nodesOf items
    = concat (imap (λ r cells,
                imap (λ c item, nodeMeta (statusOf job) r (length cells) c item) cells)
              grid) ∧
    edgesOf items = edgesOf (edgeItems (default [] (pipelineEdges dag)) 0).1.
Proof.
  intros Hdag. destruct (init_total job dag Hdag) as (grid & Hgrid & Hinit).
  exists grid. eexists. split; [done |]. split; [done |].
  rewrite nodesOf_app, edgesOf_app.
  destruct (edgeItems_edges (default [] (pipelineEdges dag)) 0) as [_ ->].
  destruct (nodeItems_nodes (statusOf job) grid) as [_ ->].
  by rewrite app_nil_r, nodesOf_nodeItems.
Qed.

(** X9.  The scene has one node for each vertex of the job, with the vertex's id
    and name as data and the job's status as status, and named after the id;
    when the vertex ids are all different, so are the node ids. *)
Theorem scene_nodes_are_the_vertices (job : Job) (dag : JobDag) :
  jobDag job = Some dag →
  let vs := default [] (vertexInfoMap dag) in
  ∃ items, init job = Ok items ∧
    NodeMeta.data <$> nodesOf items
    ≡ₚ (λ v, NodeStatus.mk (vertexId v) (statusOf job) (Some (vertexName v))) <$> vs ∧
    NodeMeta.id <$> nodesOf items
    ≡ₚ (λ v, "node-" +:+ ToString (vertexId v)) <$> vs ∧
    (NoDup (vertexId <$> vs) → NoDup (NodeMeta.id <$> nodesOf items)).
Proof.
  intros Hdag vs.
  destruct (init_nodes job dag Hdag) as (grid & items & Hgrid & Hinit & Hnodes & _).
  pose proof (layout_vertices_perm job dag grid Hdag Hgrid) as Hperm. fold vs in Hperm.
  exists items. split; [done |]. rewrite Hnodes.
  assert (NodeMeta.id <$> concat (imap (λ r cells,
            imap (λ c item, nodeMeta (statusOf job) r (length cells) c item) cells) grid)
          ≡ₚ (λ v, "node-" +:+ ToString (vertexId v)) <$> vs) as Hids.
  { rewrite (fmap_concat_imap _ (λ P, "node-" +:+ ToString (vertexId (vertex P)))) by done.
    by rewrite <- Hperm, <- list_fmap_compose. }
  split; [|split; [done |]].
  - rewrite (fmap_concat_imap _
      (λ P, NodeStatus.mk (vertexId (vertex P)) (statusOf job)
                          (Some (vertexName (vertex P))))) by done.
    by rewrite <- Hperm, <- list_fmap_compose.
  - intros Hnodup. rewrite Hids.
    rewrite (list_fmap_compose vertexId (λ i, "node-" +:+ ToString i)).
    apply NoDup_fmap_2; [|done]. intros m n. apply node_id_inj.
Qed.

Lemma init_node_ids (job : Job) (dag : JobDag) :
  jobDag job = Some dag →
  ∃ grid items,
    layout job = Ok grid ∧ init job = Ok items ∧
    nodesOf items
    = concat (imap (λ r cells,
                imap (λ c item, nodeMeta (statusOf job) r (length cells) c item) cells)
              grid) ∧
    edgesOf items = edgesOf (edgeItems (default [] (pipelineEdges dag)) 0).1 ∧
    NodeMeta.id <$> nodesOf items
    ≡ₚ (λ v, "node-" +:+ ToString (vertexId v)) <$> default [] (vertexInfoMap dag).
Proof.
  intros Hdag.
  destruct (init_nodes job dag Hdag) as (grid & items & Hgrid & Hinit & Hnodes & Hedges).
  exists grid, items. split; [done |]. split; [done |]. split; [done |]. split; [done |].
  rewrite Hnodes.
  rewrite (fmap_concat_imap _ (λ P, "node-" +:+ ToString (vertexId (vertex P)))) by done.
  by rewrite <- (layout_vertices_perm job dag grid Hdag Hgrid), <- list_fmap_compose.
Qed.

(** X10.  When both ends of every edge name a vertex of the job, both cells that
    an edge descriptor names are nodes of the scene. *)
Theorem scene_edges_join_nodes (job : Job) (dag : JobDag) :
  jobDag job = Some dag →
  let vs := default [] (vertexInfoMap dag) in
  (∀ key edges e,
      (key, edges) ∈ default [] (pipelineEdges dag) → e ∈ edges →
      (∃ u, u ∈ vs ∧ inputVertexId e = ToString (vertexId u)) ∧
      (∃ v, v ∈ vs ∧ targetVertexId e = ToString (vertexId v))) →
  ∃ items, init job = Ok items ∧
    ∀ e, e ∈ edgesOf items →
      Terminal.cell (EdgeMeta.source e) ∈ NodeMeta.id <$> nodesOf items ∧
      Terminal.cell (EdgeMeta.target e) ∈ NodeMeta.id <$> nodesOf items.
Proof.
  intros Hdag vs Hends.
  destruct (init_node_ids job dag Hdag)
    as (grid & items & _ & Hinit & _ & Hedges & Hids).
  exists items. split; [done |]. intros e He. rewrite Hedges in He.
  apply elem_of_edgesOf, elem_of_edgeItems in He
    as (id & edges & edge & z & Hin & Hedge & [= ->]).
  destruct (Hends id edges edge Hin Hedge) as [(u & Hu & Hi) (v & Hv & Ht)].
  rewrite Hids. simpl. rewrite Hi, Ht. split.
  - apply (list_elem_of_fmap_2 (λ v, "node-" +:+ ToString (vertexId v))). exact Hu.
  - apply (list_elem_of_fmap_2 (λ v, "node-" +:+ ToString (vertexId v))). exact Hv.
Qed.

Lemma scene_edges_join_nodes_witness :
  ∃ items, init Examples.fanout = Ok items ∧
    ∀ e, e ∈ edgesOf items →
      Terminal.cell (EdgeMeta.source e) ∈ NodeMeta.id <$> nodesOf items ∧
      Terminal.cell (EdgeMeta.target e) ∈ NodeMeta.id <$> nodesOf items.
Proof.
  apply (scene_edges_join_nodes Examples.fanout Examples.fanoutDag).
  - reflexivity.
  - intros key edges e Hkey He. apply list_elem_of_singleton in Hkey.
    injection Hkey as -> ->.
    apply elem_of_cons in He as [-> | He].
    + split; [exists Examples.A | exists Examples.B];
        (split; [apply (bool_decide_unpack _); vm_compute; exact I | reflexivity]).
    + apply list_elem_of_singleton in He as ->.
      split; [exists Examples.A | exists Examples.C];
        (split; [apply (bool_decide_unpack _); vm_compute; exact I | reflexivity]).
Defined.

Lemma scene_nodes_are_the_vertices_witness :
  ∃ items, init Examples.fanout = Ok items ∧
    NodeMeta.id <$> nodesOf items ≡ₚ ["node-1"; "node-2"; "node-3"] ∧
    NoDup (NodeMeta.id <$> nodesOf items).
Proof.
  destruct (scene_nodes_are_the_vertices Examples.fanout Examples.fanoutDag eq_refl)
    as (items & Hinit & _ & Hids & Hnodup).
  exists items. split; [exact Hinit |]. split; [exact Hids |].
  apply Hnodup. apply (bool_decide_unpack _). vm_compute. exact I.
Defined.

Lemma lookup_concat_position {A} (ls : list (list A)) (i : nat) (x : A) :
  concat ls !! i = Some x →
  ∃ r c l, ls !! r = Some l ∧ l !! c = Some x ∧
           i = (length (concat (take r ls)) + c)%nat.
Proof.
  revert i. induction ls as [|l ls IH]; intros i Hi; [done |].
  simpl in Hi. destruct (decide (i < length l)%nat) as [Hlt|Hge].
  - rewrite lookup_app_l in Hi by done. by exists 0%nat, i, l.
  - rewrite lookup_app_r in Hi by lia.
    destruct (IH _ Hi) as (r & c & l' & Hr & Hc & Hpos).
    exists (S r), c, l'. split; [done |]. split; [done |].
    simpl. rewrite length_app. lia.
Qed.

Lemma elem_of_init_node (job : Job) (grid : list (list Point)) (items : list Metadata)
    (r c : nat) (cells : list Point) (P : Point) :
  nodesOf items
  = concat (imap (λ r cells,
              imap (λ c item, nodeMeta (statusOf job) r (length cells) c item) cells)
            grid) →
  grid !! r = Some cells → cells !! c = Some P →
  nodeMeta (statusOf job) r (length cells) c P ∈ nodesOf items.
Proof.
  intros -> Hr Hc. apply elem_of_concat. eexists. split.
  - apply list_elem_of_lookup. exists r. by rewrite list_lookup_imap, Hr.
  - apply list_elem_of_lookup. exists c. by rewrite list_lookup_imap, Hc.
Qed.

(** X11.  For two cells next to each other in a row the scene has an edge
    descriptor from the node of the left one to the node of the right one,
    and the two ports it names are ports that these nodes have. *)
Theorem adjacent_cells_are_wired (job : Job) (dag : JobDag) :
  jobDag job = Some dag →
  ∃ grid items,
    layout job = Ok grid ∧ init job = Ok items ∧
    ∀ cells c P Q,
      cells ∈ grid → cells !! c = Some P → cells !! S c = Some Q →
      ∃ e nP nQ,
        e ∈ edgesOf items ∧ nP ∈ nodesOf items ∧ nQ ∈ nodesOf items ∧
        NodeMeta.id nP = "node-" +:+ ToString (vertexId (vertex P)) ∧
        NodeMeta.id nQ = "node-" +:+ ToString (vertexId (vertex Q)) ∧
        Terminal.cell (EdgeMeta.source e) = NodeMeta.id nP ∧
        Terminal.cell (EdgeMeta.target e) = NodeMeta.id nQ ∧
        Terminal.port (EdgeMeta.source e) ∈ Port.id <$> NodeMeta.ports nP ∧
        Terminal.port (EdgeMeta.target e) ∈ Port.id <$> NodeMeta.ports nQ.
Proof.
  intros Hdag.
  destruct (init_node_ids job dag Hdag)
    as (grid & items & Hgrid & Hinit & Hnodes & Hedges & _).
  destruct (layout_store job dag Hdag) as (st & grid' & _ & Hgrid' & Hplaced & _ & Hall & _).
  assert (grid' = grid) as -> by congruence.
  exists grid, items. split; [done |]. split; [done |].
  intros cells c P Q Hcells HP HQ.
  destruct (grid_adjacent _ _ _ st grid cells c P Q Hplaced Hall Hcells HP HQ)
    as (key & edges & Hkey & Hedge).
  destruct (edgeItems_elem_of _ 0 key edges _ Hkey Hedge) as [z Hz].
  pose proof Hcells as (r & Hr)%list_elem_of_lookup.
  exists (edgeMeta key (edgeOf (vertex P) (vertex Q)) z),
         (nodeMeta (statusOf job) r (length cells) c P),
         (nodeMeta (statusOf job) r (length cells) (S c) Q).
  split; [rewrite Hedges; by apply elem_of_edgesOf |].
  split; [by apply (elem_of_init_node job grid) |].
  split; [by apply (elem_of_init_node job grid) |].
  split; [done |]. split; [done |]. split; [done |]. split; [done |].
  apply lookup_lt_Some in HQ as Hlen.
  destruct (nodeItem_ports (statusOf job) r (length cells) c P)
    as (HidP & _ & _ & _ & HrightP & HportsP).
  destruct (nodeItem_ports (statusOf job) r (length cells) (S c) Q)
    as (HidQ & _ & _ & HleftQ & _ & HportsQ).
  split.
  - assert ("right" ∈ portGroups (nodeMeta (statusOf job) r (length cells) c P))
      as (port & Hgroup & Hport)%list_elem_of_fmap by (apply HrightP; lia).
    destruct (HportsP port Hport) as [_ Hpid].
    apply list_elem_of_fmap. exists port. split; [|done].
    rewrite Hpid, <- Hgroup, HidP. reflexivity.
  - assert ("left" ∈ portGroups (nodeMeta (statusOf job) r (length cells) (S c) Q))
      as (port & Hgroup & Hport)%list_elem_of_fmap by (apply HleftQ; lia).
    destruct (HportsQ port Hport) as [_ Hpid].
    apply list_elem_of_fmap. exists port. split; [|done].
    rewrite Hpid, <- Hgroup, HidQ. reflexivity.
Qed.

Lemma adjacent_cells_are_wired_witness :
  ∃ grid items,
    layout Examples.chain = Ok grid ∧ init Examples.chain = Ok items ∧
    ∀ cells c P Q,
      cells ∈ grid → cells !! c = Some P → cells !! S c = Some Q →
      ∃ e nP nQ,
        e ∈ edgesOf items ∧ nP ∈ nodesOf items ∧ nQ ∈ nodesOf items ∧
        NodeMeta.id nP = "node-" +:+ ToString (vertexId (vertex P)) ∧
        NodeMeta.id nQ = "node-" +:+ ToString (vertexId (vertex Q)) ∧
        Terminal.cell (EdgeMeta.source e) = NodeMeta.id nP ∧
        Terminal.cell (EdgeMeta.target e) = NodeMeta.id nQ ∧
        Terminal.port (EdgeMeta.source e) ∈ Port.id <$> NodeMeta.ports nP ∧
        Terminal.port (EdgeMeta.target e) ∈ Port.id <$> NodeMeta.ports nQ.
Proof.
  apply (adjacent_cells_are_wired Examples.chain Examples.chainDag). reflexivity.
Defined.

(** X12.  No two nodes of the scene overlap: the rectangles of width [nodeWidth]
    and height [nodeHeight] at the positions of two different nodes are
    apart, horizontally or vertically. *)
Theorem scene_nodes_do_not_overlap (job : Job) (dag : JobDag) :
  jobDag job = Some dag →
  ∃ items, init job = Ok items ∧
    ∀ i j n m,
      i ≠ j → nodesOf items !! i = Some n → nodesOf items !! j = Some m →
      NodeMeta.x n + nodeWidth < NodeMeta.x m ∨
      NodeMeta.x m + nodeWidth < NodeMeta.x n ∨
      NodeMeta.y n + nodeHeight < NodeMeta.y m ∨
      NodeMeta.y m + nodeHeight < NodeMeta.y n.
Proof.
  intros Hdag.
  destruct (init_node_ids job dag Hdag) as (grid & items & _ & Hinit & Hnodes & _).
  exists items. split; [done |]. rewrite Hnodes.
  intros i j n m Hij Hi Hj.
  apply lookup_concat_position in Hi as (r & c & l & Hr & Hc & ->).
  apply lookup_concat_position in Hj as (r' & c' & l' & Hr' & Hc' & ->).
  apply list_lookup_imap_Some in Hr as (cells & _ & ->).
  apply list_lookup_imap_Some in Hr' as (cells' & _ & ->).
  apply list_lookup_imap_Some in Hc as (P & _ & ->).
  apply list_lookup_imap_Some in Hc' as (Q & _ & ->).
  unfold nodeMeta, nodeWidth, nodeHeight, offsetX, offsetY, nodeWidth. simpl.
  destruct (decide (r = r')) as [-> | Hne]; [|lia].
  assert (c ≠ c') by congruence. lia.
Qed.

Lemma scene_nodes_do_not_overlap_witness :
  ∃ items, init Examples.fanout = Ok items ∧
    ∀ i j n m,
      i ≠ j → nodesOf items !! i = Some n → nodesOf items !! j = Some m →
      NodeMeta.x n + nodeWidth < NodeMeta.x m ∨
      NodeMeta.x m + nodeWidth < NodeMeta.x n ∨
      NodeMeta.y n + nodeHeight < NodeMeta.y m ∨
      NodeMeta.y m + nodeHeight < NodeMeta.y n.
Proof.
  apply (scene_nodes_do_not_overlap Examples.fanout Examples.fanoutDag). reflexivity.
Defined.

Lemma edge_order_zIndex_witness :
  ∃ items, init Examples.chain = Ok items ∧
    ∀ n, edgesOf items !! n
         = (λ ke, edgeMeta ke.1 ke.2 (Z.of_nat n))
           <$> [("1", edgeOf Examples.A Examples.B);
                ("1", edgeOf Examples.B Examples.C)] !! n.
Proof.
  apply (edge_order_zIndex Examples.chain Examples.chainDag). reflexivity.
Defined.

(** ** More on [showNodeStatus] *)

Lemma applyStatus_throws (snapshot : list NodeStatus.t) (graph : gmap string NodeStatus.t)
    (log : list (string * NodeStatus.t)) (item : NodeStatus.t) :
  item ∈ snapshot → graph !! cellOf item = None →
  throws (applyStatus graph snapshot log).
Proof.
  revert graph log. induction snapshot as [|item0 rest IH]; intros graph log Hin Hnone.
  - by apply elem_of_nil in Hin.
  - simpl. destruct (graph !! cellOf item0) as [data|] eqn:Hdata; [|by eexists].
    apply elem_of_cons in Hin as [-> | Hin]; [congruence |].
    apply IH; [done |]. rewrite lookup_insert_ne; [done |]. congruence.
Qed.

(** X15.  A call of [showNodeStatus] throws exactly when the pick selects a
    snapshot one of whose updates names a cell that the graph does not
    have. *)
Theorem showNodeStatus_throws_iff (graph : gmap string NodeStatus.t)
    (statusList : list (list NodeStatus.t)) (pick : nat) :
  throws (showNodeStatus graph statusList pick) ↔
  ∃ status item, statusList !! pick = Some status ∧ item ∈ status ∧
                 graph !! cellOf item = None.
Proof.
  split.
  - intros [err Herr]. destruct (statusList !! pick) as [status|] eqn:Hpick.
    + destruct (decide (Forall (λ item, is_Some (graph !! cellOf item)) status))
        as [Hall | Hnot].
      * rewrite Forall_forall in Hall.
        destruct (showNodeStatus_Ok graph statusList pick status Hpick Hall)
          as (tick & Htick & _). congruence.
      * apply not_Forall_Exists in Hnot; [|apply _].
        apply Exists_exists in Hnot as (item & Hitem & Hnone).
        exists status, item. split; [done |]. split; [done |].
        by apply eq_None_not_Some.
    + unfold showNodeStatus in Herr. by rewrite Hpick in Herr.
  - intros (status & item & Hpick & Hitem & Hnone).
    unfold showNodeStatus. rewrite Hpick.
    destruct (applyStatus_throws status graph [] item Hitem Hnone) as [err ->].
    by exists err.
Qed.

(** X16.  Applying the same snapshot a second time changes no cell. *)
Theorem showNodeStatus_idempotent (graph : gmap string NodeStatus.t)
    (statusList : list (list NodeStatus.t)) (pick : nat) (tick : Tick) :
  showNodeStatus graph statusList pick = Ok tick →
  ∃ tick', showNodeStatus (cells tick) statusList pick = Ok tick' ∧
           cells tick' = cells tick ∧ setTimeout tick' = setTimeout tick.
Proof.
  intros Htick. destruct (statusList !! pick) as [status|] eqn:Hpick.
  - assert (∀ item, item ∈ status → is_Some (graph !! cellOf item)) as Hknown.
    { intros item Hitem. destruct (graph !! cellOf item) eqn:Hc; [done |].
      destruct (applyStatus_throws status graph [] item Hitem Hc) as [err Herr].
      unfold showNodeStatus in Htick. by rewrite Hpick, Herr in Htick. }
    destruct (showNodeStatus_Ok graph statusList pick status Hpick Hknown)
      as (tick0 & Htick0 & Htimer & _ & Hcells).
    assert (tick0 = tick) as -> by congruence.
    destruct (showNodeStatus_Ok (cells tick) statusList pick status Hpick)
      as (tick' & Htick' & Htimer' & _ & Hcells').
    { intros item Hitem. rewrite Hcells. by apply fmap_is_Some, Hknown. }
    exists tick'. split; [done |]. split; [|congruence].
    apply map_eq. intros c. rewrite Hcells', Hcells.
    destruct (graph !! c) as [[i s l]|]; simpl; [|done].
    by destruct (lastStatus c status).
  - unfold showNodeStatus in *. rewrite Hpick in Htick. injection Htick as <-.
    simpl. rewrite Hpick. by eexists.
Qed.

Lemma showNodeStatus_idempotent_witness :
  ∃ tick tick',
    showNodeStatus Animation.graph Animation.statusList 0 = Ok tick ∧
    showNodeStatus (cells tick) Animation.statusList 0 = Ok tick' ∧
    cells tick' = cells tick.
Proof.
  destruct (showNodeStatus_idempotent Animation.graph Animation.statusList 0
              {| cells := <["node-2" := NodeStatus.mk 2 "RUNNING" (Some "B")]>
                            (<["node-1" := NodeStatus.mk 1 "FINISHED" (Some "A")]>
                               Animation.graph);
                 setData := [("node-1", NodeStatus.mk 1 "FINISHED" (Some "A"));
                             ("node-2", NodeStatus.mk 2 "RUNNING" (Some "B"))];
                 setTimeout := Some 5000 |})
    as (tick' & Htick' & Hcells & _).
  - reflexivity.
  - eexists _, tick'. split; [reflexivity |]. split; [exact Htick' | exact Hcells].
Defined.

(** ** The metric cells in general *)

Lemma reduce_throws_iff (job : Job) (key : string) (paths : list string) (s : Detail.Num) :
  throws (Detail.reduce job key paths s) ↔
  paths ≠ [] ∧ ∃ m, metrics job = Some m ∧ m !! key = None.
Proof.
  revert s. induction paths as [|path paths IH]; intros s; simpl.
  - split; [by intros [err [=]] | by intros [? _]].
  - unfold Detail.metricAt. destruct (metrics job) as [m|] eqn:Hm.
    + destruct (m !! key) as [table|] eqn:Hkey; simpl.
      * rewrite IH. split.
        -- intros (_ & m' & [= <-] & Hnone). congruence.
        -- intros (_ & m' & [= <-] & Hnone). congruence.
      * split; [|by eexists]. intros _. split; [done |]. by exists m.
    + simpl. rewrite IH. split.
      * by intros (_ & m' & [=] & _).
      * by intros (_ & m' & [=] & _).
Qed.

(** X17.  A metric cell throws exactly when the vertex is of the cell's kind and
    has a table path while the metrics map is present without the cell's
    key. *)
Theorem cell_throws_iff (job : Job) (row : Vertex) :
  (∀ key, throws (Detail.sourceCell job row key) ↔
          type row = "source" ∧ tablePaths row ≠ [] ∧
          ∃ m, metrics job = Some m ∧ m !! Detail.sourceKeyName key = None) ∧
  (∀ key, throws (Detail.sinkCell job row key) ↔
          type row = "sink" ∧ tablePaths row ≠ [] ∧
          ∃ m, metrics job = Some m ∧ m !! Detail.sinkKeyName key = None).
Proof.
  split; intros key.
  - unfold Detail.sourceCell. case_bool_decide as Htype.
    + rewrite reduce_throws_iff. by split; [intros [? ?] | intros (_ & ? & ?)].
    + split; [by intros [err [=]] | by intros [? _]].
  - unfold Detail.sinkCell. case_bool_decide as Htype.
    + rewrite reduce_throws_iff. by split; [intros [? ?] | intros (_ & ? & ?)].
    + split; [by intros [err [=]] | by intros [? _]].
Qed.









(** ** Focus and drawer of the job detail view ([views/jobs/detail.tsx]) *)

Lemma NoDup_fmap_eq {A B} (f : A → B) (l : list A) (x y : A) :
  NoDup (f <$> l) → x ∈ l → y ∈ l → f x = f y → x = y.
Proof.
  intros Hnodup (i & Hi)%list_elem_of_lookup (j & Hj)%list_elem_of_lookup Hxy.
  assert (i = j) as ->.
  { apply (NoDup_lookup (f <$> l) i j (f x)); [done | |].
    - by rewrite list_lookup_fmap, Hi.
    - by rewrite list_lookup_fmap, Hj, Hxy. }
  congruence.
Qed.

(** X19.  A click on the node of a vertex focuses that vertex: with vertex ids all
    different and no metric named [vertexName], the scene has a node for the
    vertex, and after a click on it the drawer is shown exactly when the
    Overview tab is selected and the vertex's id is not 0, the drawer's title
    is the vertex's name, and the row of the table that is marked as focused
    is the row of that vertex and no other. *)
Theorem node_click_focuses_vertex (job : Job) (dag : JobDag) (v : Vertex)
    (view : Focus.View) :
  jobDag job = Some dag →
  let vs := default [] (vertexInfoMap dag) in
  v ∈ vs → NoDup (vertexId <$> vs) →
  (∀ m, metrics job = Some m → m !! "vertexName" = None) →
  ∃ items n,
    init job = Ok items ∧ n ∈ nodesOf items ∧
    NodeMeta.id n = "node-" +:+ ToString (vertexId v) ∧
    let view' := Focus.nodeClick (NodeMeta.data n) view in
    (Focus.drawerShown view' = true ↔
     Focus.select view = "Overview" ∧ vertexId v ≠ 0) ∧
    Focus.focusedVertex job view' !! "vertexName"
    = Some (Focus.JString (vertexName v)) ∧
    (∀ row, row ∈ Detail.tableData job →
            Focus.rowClassName view' row = "focused-row" ↔ row = v).
Proof.
  intros Hdag vs Hv Hnodup Hmetrics.
  destruct (init_node_ids job dag Hdag)
    as (grid & items & Hgrid & Hinit & Hnodes & _ & _).
  pose proof (layout_vertices_perm job dag grid Hdag Hgrid) as Hperm. fold vs in Hperm.
  assert (∃ P, P ∈ concat grid ∧ vertex P = v) as (P & HP & <-).
  { rewrite <- Hperm in Hv. apply list_elem_of_fmap in Hv as (P & -> & HP). by exists P. }
  apply elem_of_concat in HP as (cells & (r & Hr)%list_elem_of_lookup
                                       & (c & Hc)%list_elem_of_lookup).
  exists items, (nodeMeta (statusOf job) r (length cells) c P).
  split; [done |]. split; [by apply (elem_of_init_node job grid) |].
  split; [done |]. simpl. split; [|split].
  - unfold Focus.drawerShown, Focus.nodeClick, Focus.onFocus. simpl.
    rewrite andb_true_r, andb_true_iff, !bool_decide_eq_true. done.
  - unfold Focus.focusedVertex, Focus.findVertex. simpl. rewrite Hdag.
    assert (vertexInfoMap dag = Some vs) as ->.
    { unfold vs in *. destruct (vertexInfoMap dag); [done |]. by apply elem_of_nil in Hv. }
    destruct (list_find (λ v, vertexId v = vertexId (vertex P)) vs) as [[i u]|] eqn:Hfind.
    + apply list_find_Some in Hfind as (Hu & Hid & _).
      assert (u = vertex P) as ->.
      { apply (NoDup_fmap_eq vertexId vs); [done | by eapply list_elem_of_lookup_2 | done..]. }
      rewrite lookup_union_r.
      * done.
      * destruct (metrics job) as [m|] eqn:Hm; simpl; [|done].
        unfold Focus.metricsObject. by rewrite lookup_fmap, (Hmetrics m).
    + apply list_find_None in Hfind. rewrite Forall_forall in Hfind.
      by destruct (Hfind (vertex P) Hv).
  - intros row Hrow. unfold Focus.rowClassName. simpl.
    assert (row ∈ vs) as Hin.
    { unfold Detail.tableData in Hrow. rewrite Hdag in Hrow. unfold vs.
      destruct (vertexInfoMap dag); [|done]. simpl.
      by apply list_elem_of_filter in Hrow as [_ ?]. }
    case_bool_decide as Hid.
    + split; [intros _ | done]. by apply (NoDup_fmap_eq vertexId vs).
    + split; [done |]. intros ->. done.
Qed.

Lemma node_click_focuses_vertex_witness :
  ∃ items n,
    init Examples.chain = Ok items ∧ n ∈ nodesOf items ∧
    NodeMeta.id n = "node-2" ∧
    Focus.drawerShown (Focus.nodeClick (NodeMeta.data n) Focus.initial) = true ∧
    Focus.focusedVertex Examples.chain
      (Focus.nodeClick (NodeMeta.data n) Focus.initial) !! "vertexName"
    = Some (Focus.JString "B").
Proof.
  destruct (node_click_focuses_vertex Examples.chain Examples.chainDag Examples.B
              Focus.initial)
    as (items & n & Hinit & Hn & Hid & Hshown & Htitle & _).
  - reflexivity.
  - apply (bool_decide_unpack _). vm_compute. exact I.
  - apply (bool_decide_unpack _). vm_compute. exact I.
  - intros m Hm. discriminate Hm.
  - exists items, n. split; [exact Hinit |]. split; [exact Hn |].
    split; [exact Hid |]. split; [|exact Htitle].
    apply Hshown. split; [reflexivity | simpl; lia].
Defined.

(** ** Fan-out and row heads *)

Lemma verticesAt_singletons_at (vs : list Vertex) (l : list nat) (l' : list Vertex) :
  Forall2 (λ p v, vs !! p = Some v) l l' →
  verticesAt vs ((λ i, [i]) <$> l) = (λ v, [v]) <$> l'.
Proof.
  induction 1 as [|p v l l' Hpv _ IH]; [done |].
  unfold verticesAt in *. simpl. rewrite Hpv. simpl. f_equal. exact IH.
Qed.

Lemma rowsLayout_star (conn : nat → nat → bool) (n : nat) :
  (∀ p q, (p < q)%nat → (q < S (S n))%nat → conn p q = true ↔ p = 0%nat) →
  rowsLayout conn (S (S n)) = [0; 1]%nat :: ((λ i, [i]) <$> seq 2 n).
Proof.
  induction n as [|n IH]; intros Hconn.
  - change (rowsLayout conn 2) with (rowsStep conn [[0%nat]] 1).
    unfold rowsStep.
    rewrite (proj2 (list_find_Some _ _ 0%nat 0%nat)).
    + rewrite (proj2 (list_find_Some _ _ 0%nat [0%nat])); [done |].
      split; [done |]. split; [done | intros; lia].
    + simpl. split; [done |]. split; [apply Hconn; lia | intros; lia].
  - rewrite rowsLayout_S, IH by (intros; apply Hconn; lia).
    unfold rowsStep.
    rewrite (proj2 (list_find_Some _ _ 0%nat 0%nat)).
    + rewrite (proj2 (list_find_None _ _)).
      * by rewrite (seq_S n 2), fmap_app.
      * apply Forall_cons. split; [simpl; congruence |].
        apply Forall_fmap, Forall_forall. intros i Hi%elem_of_seq. simpl. intros [=]. lia.
    + split; [done |]. split; [apply Hconn; lia | intros; lia].
Qed.

Section row_heads.
Context (conn : nat → nat → bool).

Lemma rowsStep_nonempty (rows : list (list nat)) (i : nat) :
  (∀ cells, cells ∈ rows → cells ≠ []) →
  ∀ cells, cells ∈ rowsStep conn rows i → cells ≠ [].
Proof.
  intros Hne cells. unfold rowsStep.
  assert (cells ∈ rows ++ [[i]] → cells ≠ []) as Hnew.
  { intros [H | ->%list_elem_of_singleton]%elem_of_app; [by apply Hne | done]. }
  destruct (list_find _ (concat rows)) as [[j p]|]; [|done].
  destruct (list_find _ rows) as [[r row]|]; [|done].
  intros (k & Hk)%list_elem_of_lookup. rewrite list_lookup_alter in Hk.
  case_decide.
  - apply fmap_Some in Hk as (old & _ & ->). by destruct old.
  - apply Hne. by eapply list_elem_of_lookup_2.
Qed.

Lemma rowsLayout_nonempty (n : nat) (cells : list nat) :
  cells ∈ rowsLayout conn n → cells ≠ [].
Proof.
  revert cells. induction n as [|n IH]; intros cells.
  - intros H. by apply elem_of_nil in H.
  - rewrite rowsLayout_S. by apply rowsStep_nonempty.
Qed.

Lemma rowsStep_heads (rows : list (list nat)) (i : nat) :
  (∀ cells, cells ∈ rows → cells ≠ []) →
  ∃ tl, omap head (rowsStep conn rows i) = omap head rows ++ tl ∧
        (list_find (λ p, conn p i = true) (concat rows) = None → tl = [i]).
Proof.
  intros Hne. unfold rowsStep.
  destruct (list_find _ (concat rows)) as [[j p]|].
  - destruct (list_find _ rows) as [[r row]|].
    + exists []. rewrite app_nil_r. split; [by apply omap_head_alter_snoc | done].
    + exists [i]. by rewrite omap_app.
  - exists [i]. by rewrite omap_app.
Qed.

Lemma rowsLayout_head (n q : nat) :
  (q < n)%nat → (∀ p, (p < q)%nat → conn p q = false) →
  q ∈ omap head (rowsLayout conn n).
Proof.
  intros Hq Hnone. induction n as [|n IH]; [lia |].
  rewrite rowsLayout_S.
  destruct (rowsStep_heads (rowsLayout conn n) n) as (tl & -> & Htl).
  { intros cells. apply rowsLayout_nonempty. }
  apply elem_of_app. destruct (decide (q = n)) as [-> | Hne].
  - right. rewrite Htl; [apply list_elem_of_here |].
    apply list_find_None, Forall_forall. intros p Hp%rowsLayout_lt.
    rewrite Hnone by done. done.
  - left. apply IH. lia.
Qed.

End row_heads.

(** X20.  A fan-out of any width: when the first vertex has an edge to every
    later vertex and no other edge leads from a vertex to a later one, the
    first two vertices share the first row and every further vertex gets a
    row of its own, in input order. *)
Theorem layout_fan_out (job : Job) (dag : JobDag) (a b : Vertex) (rest : list Vertex) :
  jobDag job = Some dag →
  let edgeMap := default [] (pipelineEdges dag) in
  let vs := default [] (vertexInfoMap dag) in
  vs = a :: b :: rest →
  (∀ p q u v, (p < q)%nat → vs !! p = Some u → vs !! q = Some v →
              hasEdge edgeMap u v ↔ p = 0%nat) →
  ∃ grid, layout job = Ok grid ∧ vertices grid = [a; b] :: ((λ v, [v]) <$> rest).
Proof.
  intros Hdag edgeMap vs Hvs Hstar.
  destruct (layout_store job dag Hdag) as (st & grid & _ & Hgrid & _ & Hm & _ & Hv).
  exists grid. split; [done |]. rewrite Hv, Hm. fold edgeMap vs.
  assert (length vs = S (S (length rest))) as Hlen by (by rewrite Hvs).
  rewrite Hlen, rowsLayout_star.
  - unfold verticesAt. cbn [map]. f_equal.
    + by rewrite Hvs.
    + apply (verticesAt_singletons_at vs (seq 2 (length rest)) rest).
      apply Forall2_same_length_lookup. split; [by rewrite length_seq |].
      intros i p v [-> _]%lookup_seq Hi. by rewrite Hvs.
  - intros p q Hpq Hq. rewrite connV_true.
    destruct (lookup_lt_is_Some_2 vs p) as [u Hu]; [lia |].
    destruct (lookup_lt_is_Some_2 vs q) as [v Hv']; [lia |].
    rewrite <- (Hstar p q u v Hpq Hu Hv'). split; [|by exists u, v].
    intros (u' & v' & Hu' & Hv'' & Hedge). congruence.
Qed.

Lemma layout_fan_out_witness :
  ∃ grid, layout Examples.fanout = Ok grid ∧
          vertices grid = [[Examples.A; Examples.B]; [Examples.C]].
Proof.
  apply (layout_fan_out Examples.fanout Examples.fanoutDag Examples.A Examples.B
           [Examples.C]).
  - reflexivity.
  - reflexivity.
  - intros p q u v Hpq Hu Hv. three_positions p q Hpq Hu Hv;
      rewrite <- connects_true; vm_compute; split; intros; (done || lia).
Defined.

(** X21.  A vertex that has no edge from a vertex listed before it starts a
    row: it is the first cell of a row of the grid, whatever is placed after
    it. *)
Theorem vertex_without_earlier_source_starts_a_row (job : Job) (dag : JobDag)
    (q : nat) (v : Vertex) :
  jobDag job = Some dag →
  let edgeMap := default [] (pipelineEdges dag) in
  let vs := default [] (vertexInfoMap dag) in
  vs !! q = Some v →
  (∀ p u, (p < q)%nat → vs !! p = Some u → ¬ hasEdge edgeMap u v) →
  ∃ grid, layout job = Ok grid ∧
          ∃ cells, cells ∈ vertices grid ∧ head cells = Some v.
Proof.
  intros Hdag edgeMap vs Hq Hnone.
  destruct (layout_store job dag Hdag) as (st & grid & _ & Hgrid & _ & Hm & _ & Hv).
  exists grid. split; [done |]. rewrite Hv, Hm. fold edgeMap vs.
  assert (q ∈ omap head (rowsLayout (connV edgeMap vs) (length vs))) as Hhead.
  { apply rowsLayout_head; [by eapply lookup_lt_Some |].
    intros p Hp. apply not_true_is_false.
    intros (u & v' & Hu & Hv' & Hedge)%connV_true.
    apply (Hnone p u Hp Hu). congruence. }
  apply list_elem_of_omap in Hhead as (cells & Hcells & Hc).
  exists (omap (λ p, vs !! p) cells). split.
  - by apply (list_elem_of_fmap_2 (omap (λ p, vs !! p))).
  - destruct cells as [|c cells]; simplify_eq/=. by rewrite Hq.
Qed.

Lemma vertex_without_earlier_source_starts_a_row_witness :
  ∃ grid, layout Orders.reversed = Ok grid ∧
          ∃ cells, cells ∈ vertices grid ∧ head cells = Some Examples.B.
Proof.
  apply (vertex_without_earlier_source_starts_a_row Orders.reversed Orders.reversedDag
           1%nat Examples.B).
  - reflexivity.
  - reflexivity.
  - intros p u Hp Hu. destruct p as [|p]; [|lia]. simpl in Hu. simplify_eq.
    rewrite <- connects_true. vm_compute. discriminate.
Defined.

(** ** Status updates on the scene of a job *)

(** X22.  [init] and [showNodeStatus] name the nodes alike: on a graph that
    holds the nodes of the scene of a job, a call of [showNodeStatus] whose
    picked snapshot updates vertices of that job does not throw. *)
Theorem status_updates_find_the_scene_nodes (job : Job) (dag : JobDag)
    (items : list Metadata) (graph : gmap string NodeStatus.t)
    (statusList : list (list NodeStatus.t)) (pick : nat) :
  jobDag job = Some dag →
  init job = Ok items →
  (∀ n, n ∈ nodesOf items → is_Some (graph !! NodeMeta.id n)) →
  (∀ status item, statusList !! pick = Some status → item ∈ status →
     NodeStatus.id item ∈ vertexId <$> default [] (vertexInfoMap dag)) →
  ∃ tick, showNodeStatus graph statusList pick = Ok tick.
Proof.
  intros Hdag Hinit Hgraph Hids.
  destruct (statusList !! pick) as [status|] eqn:Hpick.
  - destruct (showNodeStatus_Ok graph statusList pick status Hpick) as (tick & Htick & _);
      [|by exists tick].
    intros item Hitem.
    destruct (init_node_ids job dag Hdag) as (grid & items' & _ & Hinit' & _ & _ & Hperm).
    assert (items' = items) as -> by congruence.
    apply (Hids status item eq_refl), list_elem_of_fmap in Hitem as (v & Hid & Hv).
    assert (cellOf item ∈ NodeMeta.id <$> nodesOf items) as (n & Hn & Hin)%list_elem_of_fmap.
    { rewrite Hperm. apply list_elem_of_fmap. exists v. split; [|done].
      unfold cellOf. by rewrite Hid. }
    rewrite Hn. by apply Hgraph.
  - unfold showNodeStatus. rewrite Hpick. by eexists.
Qed.

Lemma status_updates_find_the_scene_nodes_witness :
  ∃ tick,
    showNodeStatus
      (<["node-3" := NodeStatus.mk 3 "RUNNING" (Some "C")]> Animation.graph)
      Animation.statusList 0 = Ok tick.
Proof.
  destruct (init Examples.chain) as [items|err] eqn:Hinit; [|vm_compute in Hinit; discriminate].
  apply (status_updates_find_the_scene_nodes Examples.chain Examples.chainDag items).
  - reflexivity.
  - exact Hinit.
  - vm_compute in Hinit. injection Hinit as <-. intros n Hn.
    cbn [nodesOf omap] in Hn. simpl in Hn.
    repeat (apply elem_of_cons in Hn as [-> | Hn]; [by eexists |]).
    by apply elem_of_nil in Hn.
  - intros status item [= <-] Hitem.
    repeat (apply elem_of_cons in Hitem as [-> | Hitem]; [vm_compute; set_solver |]).
    by apply elem_of_nil in Hitem.
Defined.
